(** * The news landing page of lemmy-ui, embedded in Rocq

    Source: [src/shared/components/home/news-landing.tsx], the
    [NewsLanding] component.  The development models

    - the string helpers the component relies on ([trim], [toLowerCase],
      the [a || b] idiom on optional strings),
    - the presentation resolver ([hasMiniTag], [getImageUrl],
      [renderNewsPost], [renderGalleryItem], [renderLocalTopContent]),
    - the tag cloud builder ([buildTagCloud]) together with the binary64
      arithmetic its size formula is evaluated in,
    - the fetch orchestrator ([constructor], [componentWillMount],
      [fetchAll]) as a small asynchronous command language run by an
      event-driven scheduler.

    Definitions come first, the theorems about them follow. *)

From Stdlib Require Import List ZArith NArith QArith Qpower Qround Qabs Lia Lqa.
From Stdlib Require Import Bool.
From Stdlib Require Import String Ascii Permutation Sorted.
Import ListNotations.

(* ================================================================= *)
(** ** JavaScript strings *)

Module JsString.

(** A JavaScript string is a sequence of UTF-16 code units. *)
Definition t := list N.

(** A source literal made of ASCII characters. *)
Definition lit (s : string) : t := map N_of_ascii (list_ascii_of_string s).

Definition eqb (a b : t) : bool :=
  if list_eq_dec N.eq_dec a b then true else false.

(** [ToBoolean] on a string: the empty string is falsy. *)
Definition truthy (s : t) : bool :=
  match s with [] => false | _ :: _ => true end.

(** [ToBoolean] on a possibly undefined string. *)
Definition truthy_opt (o : option t) : bool :=
  match o with Some s => truthy s | None => false end.

(** [a || b] where [a] may be undefined and [b] is a string. *)
Definition or_else (a : option t) (b : t) : t :=
  match a with
  | Some (c :: s) => c :: s
  | _ => b
  end.

(** The code units [String.prototype.trim] strips: ECMAScript's
    WhiteSpace and LineTerminator productions. *)
Definition is_space (c : N) : bool :=
  existsb (N.eqb c)
    [0x09; 0x0A; 0x0B; 0x0C; 0x0D; 0x20; 0xA0; 0x1680;
     0x2000; 0x2001; 0x2002; 0x2003; 0x2004; 0x2005; 0x2006; 0x2007;
     0x2008; 0x2009; 0x200A; 0x2028; 0x2029; 0x202F; 0x205F; 0x3000;
     0xFEFF]%N.

Fixpoint trimStart (s : t) : t :=
  match s with
  | c :: s' => if is_space c then trimStart s' else s
  | [] => []
  end.

Definition trim (s : t) : t := rev (trimStart (rev (trimStart s))).

(** [String.prototype.toLowerCase], exact on ASCII: [A]..[Z] go to
    [a]..[z].  Code units outside ASCII are left as they are; no such
    code unit lower-cases to one of the letters of ["mini"], so the
    comparison made by [hasMiniTag] is not affected. *)
Definition lower_unit (c : N) : N :=
  if ((65 <=? c) && (c <=? 90))%N then (c + 32)%N else c.

Definition toLowerCase (s : t) : t := map lower_unit s.

End JsString.

Definition jsstring : Type := JsString.t.

(* ================================================================= *)
(** ** Data consumed from lemmy-js-client *)

(** [Tag]: the fields the component reads. *)
Record Tag := {
  tag_name : jsstring;
  display_name : option jsstring;
  deleted : bool
}.

(** [Post]: the fields the component reads. *)
Record Post := {
  id : Z;
  name : jsstring;
  url : option jsstring;
  body : option jsstring;
  alt_text : option jsstring;
  nsfw : bool;
  thumbnail_url : option jsstring;
  score : Z;
  comments : Z
}.

Record ImageDetails := { link : jsstring }.

Record Community := { title : jsstring; community_nsfw : bool }.

Record Person := { person_name : jsstring }.

Record PostView := {
  post : Post;
  creator : Person;
  community : Community;
  image_details : option ImageDetails;
  tags : list Tag
}.

Record GetPostsResponse := { posts : list PostView }.

(** The expression [tag.display_name || tag.name || ""] that both
    [hasMiniTag] and [buildTagCloud] start from. *)
Definition raw_label (tag : Tag) : jsstring :=
  JsString.or_else (display_name tag)
    (JsString.or_else (Some (tag_name tag)) []).

(* ================================================================= *)
(** ** Presentation resolver *)

(** [hasMiniTag]: [tags.some(tag => (...).toLowerCase() === "mini")]. *)
Definition is_mini (tag : Tag) : bool :=
  let tagName := JsString.toLowerCase (raw_label tag) in
  JsString.eqb tagName (JsString.lit "mini").

Definition hasMiniTag (tags : list Tag) : bool := existsb is_mini tags.

(** The mini-marker as the specification words it: the display label
    after trimming, lower-cased, is ["mini"].  [hasMiniTag] above is the
    test the component runs. *)
Definition is_mini_marker (tag : Tag) : bool :=
  JsString.eqb (JsString.toLowerCase (JsString.trim (raw_label tag)))
               (JsString.lit "mini").

Definition has_mini_marker (tags : list Tag) : bool :=
  existsb is_mini_marker tags.

(** What the three conditional blocks of a rendered news post hold. *)
Record ImageBlock := {
  img_href : jsstring;
  img_new_tab : bool;
  img_src : jsstring;
  img_alt : option jsstring;
  img_nsfw : bool
}.

Record LinkBlock := { link_href : jsstring; link_text : jsstring }.

Record NewsPostView := {
  np_id : Z;
  np_title : jsstring;
  np_creator : jsstring;
  np_score : Z;
  np_comments : Z;
  np_link : option LinkBlock;
  np_image : option ImageBlock;
  np_body : option jsstring
}.

Record GalleryItemView := {
  gi_id : Z;
  gi_title : jsstring;
  gi_image : option jsstring;
  gi_alt : option jsstring;
  gi_nsfw : bool;
  gi_score : Z;
  gi_comments : Z
}.

Record TopItemView := {
  ti_id : Z;
  ti_title : jsstring;
  ti_community : jsstring
}.

Section Presentation.

(** [isImage] of [@utils/media] and [hostname] of [@utils/helpers] are
    collaborators of the component. *)
Variable isImage : jsstring -> bool.
Variable hostname : jsstring -> jsstring.

(** [postView.image_details?.link]. *)
Definition details_link (postView : PostView) : option jsstring :=
  option_map link (image_details postView).

(** [x && isImage(x)] for a possibly undefined [x]. *)
Definition accepted (x : option jsstring) : bool :=
  match x with
  | Some u => JsString.truthy u && isImage u
  | None => false
  end.

(** [getImageUrl]: three early returns, then [undefined]. *)
Definition getImageUrl (postView : PostView) : option jsstring :=
  if JsString.truthy_opt (details_link postView) then details_link postView
  else if accepted (url (post postView)) then url (post postView)
  else if accepted (thumbnail_url (post postView))
       then thumbnail_url (post postView)
  else None.

(** [renderNewsPost]: the article of one news post.  The three
    conditional blocks are kept as options, in source order. *)
Definition renderNewsPost (postView : PostView) : NewsPostView :=
  let p := post postView in
  let isMini := hasMiniTag (tags postView) in
  let imageUrl := if negb isMini then getImageUrl postView else None in
  {| np_id := id p;
     np_title := name p;
     np_creator := person_name (creator postView);
     np_score := score p;
     np_comments := comments p;
     np_link :=
       match url p with
       | Some u =>
           if JsString.truthy u && negb isMini
              && negb (JsString.truthy_opt imageUrl)
           then Some {| link_href := u; link_text := hostname u |}
           else None
       | None => None
       end;
     np_image :=
       match imageUrl with
       | Some i =>
           if JsString.truthy i then
             Some {| img_href := match url p with Some u => u | None => i end;
                     img_new_tab := JsString.truthy_opt (url p);
                     img_src := i;
                     img_alt := alt_text p;
                     img_nsfw := nsfw p || community_nsfw (community postView) |}
           else None
       | None => None
       end;
     np_body :=
       match body p with
       | Some b => if negb isMini && JsString.truthy b then Some b else None
       | None => None
       end |}.

(** [renderGalleryItem]: [getImageUrl(postView) ?? post.thumbnail_url],
    shown when truthy. *)
Definition gallery_thumbnail (postView : PostView) : option jsstring :=
  match getImageUrl postView with
  | Some i => Some i
  | None => thumbnail_url (post postView)
  end.

Definition renderGalleryItem (postView : PostView) : GalleryItemView :=
  let thumbnail := gallery_thumbnail postView in
  {| gi_id := id (post postView);
     gi_title := name (post postView);
     gi_image := if JsString.truthy_opt thumbnail then thumbnail else None;
     gi_alt := alt_text (post postView);
     gi_nsfw := nsfw (post postView) || community_nsfw (community postView);
     gi_score := score (post postView);
     gi_comments := comments (post postView) |}.

End Presentation.

(* ================================================================= *)
(** ** Request states *)

Record Error := { message : jsstring }.

(** Modelled from the spec: the [RequestState] type of
    [services/HttpService], whose declaration is not part of the sources
    at hand.  The component switches on its four tags ["empty"],
    ["loading"], ["success"] (with [data]) and ["failed"] (with [err]). *)
Inductive RequestState (T : Type) : Type :=
| Empty
| Loading
| Success (data : T)
| Failed (err : Error).

Arguments Empty {T}.
Arguments Loading {T}.
Arguments Success {T} data.
Arguments Failed {T} err.

Definition EMPTY_REQUEST {T} : RequestState T := Empty.
Definition LOADING_REQUEST {T} : RequestState T := Loading.

(** What a feed section shows, by tag of its slot. *)
Inductive SectionView (Item : Type) : Type :=
| Spinner
| ErrorAlert (msg : jsstring)
| NoPosts
| Items (items : list Item)
| Nothing.

Arguments Spinner {Item}.
Arguments ErrorAlert {Item} msg.
Arguments NoPosts {Item}.
Arguments Items {Item} items.
Arguments Nothing {Item}.

(** The list a section shows, empty when it shows something else. *)
Definition section_items {Item} (v : SectionView Item) : list Item :=
  match v with Items l => l | _ => [] end.

Definition renderTopItem (p : PostView) : TopItemView :=
  {| ti_id := id (post p);
     ti_title := name (post p);
     ti_community := title (community p) |}.

(** [Array.prototype.slice(0, n)]. *)
Definition slice0 {A} (n : nat) (l : list A) : list A := firstn n l.

(** [renderLocalTopContent]. *)
Definition renderLocalTopContent
    (localTopPosts : RequestState GetPostsResponse) : SectionView TopItemView :=
  match localTopPosts with
  | Loading => Spinner
  | Failed err => ErrorAlert (message err)
  | Success data =>
      let ps := slice0 10 (posts data) in
      match ps with
      | [] => NoPosts
      | _ :: _ => Items (map renderTopItem ps)
      end
  | Empty => Nothing
  end.

(* ================================================================= *)
(** ** Numbers: IEEE 754 binary64 *)

(** A JavaScript number is a binary64 float.  A finite float is kept as
    the rational it denotes, and every operation is the exact operation
    followed by rounding to nearest, ties to even, at 53 bits of
    precision (gradual underflow included).  Overflow to [Infinity] is
    left out: the size formula of the tag cloud stays below 2. *)
Module Binary64.

Local Open Scope Z_scope.

(** [x * 2^e] for [e >= 0], and [x] itself for [e < 0]. *)
Definition shl (x e : Z) : Z := x * 2 ^ Z.max e 0.

(** Nearest integer to [n / d] ([d > 0]), ties to even. *)
Definition round_half_even (n d : Z) : Z :=
  let q := n / d in
  let r := n mod d in
  if 2 * r <? d then q
  else if d <? 2 * r then q + 1
  else if Z.even q then q else q + 1.

(** [floor (log2 (n / d))] for positive [n] and [d]. *)
Definition ilog2 (n d : Z) : Z :=
  let l := Z.log2 n - Z.log2 d in
  if shl n (- l) <? shl d l then l - 1 else l.

(** The exponent of the last place of the float nearest to [n / d]. *)
Definition ulp_exp (n d : Z) : Z := Z.max (ilog2 n d - 52) (-1074).

(** Rounding of a rational to binary64. *)
Definition rnd (q : Q) : Q :=
  let q' := Qred q in
  let n := Qnum q' in
  let d := Zpos (Qden q') in
  if n =? 0 then 0%Q
  else
    let a := Z.abs n in
    let e := ulp_exp a d in
    let m := round_half_even (shl a (- e)) (shl d e) in
    Qred ((Z.sgn n * shl m e) # Z.to_pos (shl 1 (- e))).

Definition add (a b : Q) : Q := rnd (a + b).
Definition sub (a b : Q) : Q := rnd (a - b).
Definition mul (a b : Q) : Q := rnd (a * b).
Definition div (a b : Q) : Q := rnd (a / b).

(** A count held in a number is an integer far below [2^53], hence
    exact. *)
Definition of_int (z : Z) : Q := inject_Z z.

(** [Number.prototype.toFixed(2)]: the integer [n] for which [n / 100]
    is nearest to the number, the larger one on a tie; the result is
    the decimal string of [n / 100] with two fraction digits, kept
    here as [n], the number of hundredths. *)
Definition toFixed2 (x : Q) : Z :=
  Z.sgn (Qnum x) * Qfloor (Qabs x * 100 + (1 # 2))%Q.

(** [parseFloat] of a decimal string with two fraction digits. *)
Definition parseFloat2 (n : Z) : Q := rnd (n # 100).

(** [2^-52]: a bound on the rounding error of a float below 4. *)
Definition eps : Q := 1 # 4503599627370496.

End Binary64.

(* ================================================================= *)
(** ** Tag cloud builder *)

(** [Map<string, number>]: keys in insertion order, [set] on a present
    key keeps its place. *)
Module CountMap.

Definition t := list (jsstring * Z).

Fixpoint get (m : t) (k : jsstring) : option Z :=
  match m with
  | [] => None
  | (k', v) :: m' => if JsString.eqb k' k then Some v else get m' k
  end.

Fixpoint set (m : t) (k : jsstring) (v : Z) : t :=
  match m with
  | [] => [(k, v)]
  | (k', v') :: m' =>
      if JsString.eqb k' k then (k, v) :: m' else (k', v') :: set m' k v
  end.

End CountMap.

Record TagCloudEntry := { tc_name : jsstring; tc_size : Q }.

(** The trimmed label of a tag. *)
Definition tag_label (tag : Tag) : jsstring := JsString.trim (raw_label tag).

(** Body of the inner loop of [buildTagCloud]. *)
Definition count_tag (counts : CountMap.t) (tag : Tag) : CountMap.t :=
  if deleted tag then counts
  else
    let label := tag_label tag in
    if negb (JsString.truthy label) then counts
    else
      CountMap.set counts label
        (match CountMap.get counts label with Some c => c | None => 0 end + 1)%Z.

Definition count_post (counts : CountMap.t) (p : PostView) : CountMap.t :=
  fold_left count_tag (tags p) counts.

Definition tag_counts (ps : list PostView) : CountMap.t :=
  fold_left count_post ps [].

(** [Math.max(...xs)] and [Math.min(...xs)] on a non-empty array; the
    component returns before calling them on an empty one. *)
Definition Math_max (xs : list Z) : Z :=
  match xs with
  | [] => 0%Z
  | x :: xs' => fold_left Z.max xs' x
  end.

Definition Math_min (xs : list Z) : Z :=
  match xs with
  | [] => 0%Z
  | x :: xs' => fold_left Z.min xs' x
  end.

(** [entries.sort((a, b) => b[1] - a[1])]: a stable sort, larger counts
    first. *)
Fixpoint sort_insert (x : jsstring * Z) (l : list (jsstring * Z))
  : list (jsstring * Z) :=
  match l with
  | [] => [x]
  | y :: l' =>
      if (snd x <? snd y)%Z then y :: sort_insert x l' else x :: y :: l'
  end.

Definition sort_by_count (l : list (jsstring * Z)) : list (jsstring * Z) :=
  fold_right sort_insert [] l.

Definition minSize : Q := Binary64.rnd (85 # 100).
Definition maxSize : Q := Binary64.rnd (16 # 10).

(** The ratio of a count within [[min, max]]. *)
Definition tag_ratio (max min count : Z) : Q :=
  if (max =? min)%Z then (1 # 2)
  else Binary64.div (Binary64.of_int (count - min))
                    (Binary64.of_int (max - min)).

(** [minSize + (maxSize - minSize) * ratio] before it is printed. *)
Definition raw_size (ratio : Q) : Q :=
  Binary64.add minSize (Binary64.mul (Binary64.sub maxSize minSize) ratio).

(** [parseFloat((...).toFixed(2))]. *)
Definition tag_size (max min count : Z) : Q :=
  Binary64.parseFloat2 (Binary64.toFixed2 (raw_size (tag_ratio max min count))).

(** [buildTagCloud]. *)
Definition buildTagCloud (ps : list PostView) : list TagCloudEntry :=
  let entries := tag_counts ps in
  match entries with
  | [] => []
  | _ :: _ =>
      let max := Math_max (map snd entries) in
      let min := Math_min (map snd entries) in
      map (fun e => {| tc_name := fst e; tc_size := tag_size max min (snd e) |})
          (sort_by_count entries)
  end.

(** Notions the statements about the tag cloud are phrased with: a tag
    qualifies when it is not deleted and its trimmed label is not empty;
    [occurrences k ts] counts the qualifying tags of [ts] labelled [k]. *)
Definition qualifying (tag : Tag) : bool :=
  negb (deleted tag) && JsString.truthy (tag_label tag).

Definition occurrences (k : jsstring) (ts : list Tag) : Z :=
  Z.of_nat (List.length
    (filter (fun t => qualifying t && JsString.eqb (tag_label t) k) ts)).

Definition all_tags (ps : list PostView) : list Tag := flat_map tags ps.

(** [counts.get(k) ?? 0]. *)
Definition count_or_zero (m : CountMap.t) (k : jsstring) : Z :=
  match CountMap.get m k with Some c => c | None => 0%Z end.

(** The count behind a label of the cloud. *)
Definition count_of (ps : list PostView) (k : jsstring) : Z :=
  occurrences k (all_tags ps).

(* ================================================================= *)
(** ** Fetch orchestrator *)

(** The three feeds, in the order of the array given to [Promise.all]. *)
Inductive Feed := News | Gallery | TopLocal.

Inductive SortType := New | Top.
Inductive ListingType := Local.

(** The form passed to [getPosts]. *)
Record GetPosts := {
  community_name : option jsstring;
  type_ : option ListingType;
  sort : SortType;
  limit : Z
}.

Definition news_form : GetPosts :=
  {| community_name := Some (JsString.lit "news"); type_ := None;
     sort := New; limit := 20 |}.
Definition gallery_form : GetPosts :=
  {| community_name := Some (JsString.lit "gallery"); type_ := None;
     sort := Top; limit := 3 |}.
Definition top_form : GetPosts :=
  {| community_name := None; type_ := Some Local; sort := Top; limit := 10 |}.

Definition Slot : Type := RequestState GetPostsResponse.

(** [NewsLandingState]. *)
Record NewsLandingState := {
  newsPosts : Slot;
  galleryPosts : Slot;
  localTopPosts : Slot;
  isIsomorphic : bool
}.

Definition slot (f : Feed) (s : NewsLandingState) : Slot :=
  match f with
  | News => newsPosts s
  | Gallery => galleryPosts s
  | TopLocal => localTopPosts s
  end.

(** The object given to [setState]: the keys it mentions. *)
Record Patch := {
  set_newsPosts : option Slot;
  set_galleryPosts : option Slot;
  set_localTopPosts : option Slot
}.

(** [setState]: the mentioned keys are replaced together, the others
    are kept. *)
Definition setState (s : NewsLandingState) (p : Patch) : NewsLandingState :=
  {| newsPosts := match set_newsPosts p with Some v => v | None => newsPosts s end;
     galleryPosts :=
       match set_galleryPosts p with Some v => v | None => galleryPosts s end;
     localTopPosts :=
       match set_localTopPosts p with Some v => v | None => localTopPosts s end;
     isIsomorphic := isIsomorphic s |}.

(** The body of an [async] method: state updates, and one suspension on
    [Promise.all] of three [getPosts] calls. *)
Inductive Async : Type :=
| Return
| SetState (p : Patch) (k : Async)
| AwaitAll (news gallery top : GetPosts) (k : Slot -> Slot -> Slot -> Async).

(** [fetchAll]. *)
Definition fetchAll : Async :=
  SetState {| set_newsPosts := Some LOADING_REQUEST;
              set_galleryPosts := Some LOADING_REQUEST;
              set_localTopPosts := Some LOADING_REQUEST |}
    (AwaitAll news_form gallery_form top_form
       (fun newsPosts galleryPosts localTopPosts =>
          SetState {| set_newsPosts := Some newsPosts;
                      set_galleryPosts := Some galleryPosts;
                      set_localTopPosts := Some localTopPosts |}
            Return)).

(** [isoData.routeData]: the three entries of the hydration snapshot.
    [fetchInitialData] fills them with what the wrapped client's
    [getPosts] resolved to, so each one is a request state. *)
Record RouteData := {
  rd_newsPosts : Slot;
  rd_galleryPosts : Slot;
  rd_localTopPosts : Slot
}.

(** The field initialiser of [state], then the [constructor]. *)
Definition initial_state : NewsLandingState :=
  {| newsPosts := EMPTY_REQUEST;
     galleryPosts := EMPTY_REQUEST;
     localTopPosts := EMPTY_REQUEST;
     isIsomorphic := false |}.

Definition constructor (isFirstLoad : bool) (routeData : RouteData)
  : NewsLandingState :=
  if isFirstLoad then
    {| newsPosts := rd_newsPosts routeData;
       galleryPosts := rd_galleryPosts routeData;
       localTopPosts := rd_localTopPosts routeData;
       isIsomorphic := true |}
  else initial_state.

(** [componentWillMount]. *)
Definition componentWillMount (s : NewsLandingState) (isBrowser : bool) : Async :=
  if negb (isIsomorphic s) && isBrowser then fetchAll else Return.

(** Modelled from the spec: what a [getPosts] promise of the wrapped
    client ([wrapClient] of [services/HttpService], not part of the
    sources at hand) settles with: [Success(page)] on a response,
    [Failed(error)] on a transport fault. *)
Inductive Outcome :=
| Ok (page : GetPostsResponse)
| Fault (err : Error).

Definition to_slot (o : Outcome) : Slot :=
  match o with
  | Ok page => Success page
  | Fault err => Failed err
  end.

(** An invocation suspended on [Promise.all]: what has settled so far,
    and the rest of the method. *)
Record Task := {
  got_news : option Slot;
  got_gallery : option Slot;
  got_top : option Slot;
  cont : Slot -> Slot -> Slot -> Async
}.

Definition got (f : Feed) (t : Task) : option Slot :=
  match f with
  | News => got_news t
  | Gallery => got_gallery t
  | TopLocal => got_top t
  end.

Definition settle (f : Feed) (v : Slot) (t : Task) : Task :=
  match f with
  | News => {| got_news := Some v; got_gallery := got_gallery t;
               got_top := got_top t; cont := cont t |}
  | Gallery => {| got_news := got_news t; got_gallery := Some v;
                  got_top := got_top t; cont := cont t |}
  | TopLocal => {| got_news := got_news t; got_gallery := got_gallery t;
                   got_top := Some v; cont := cont t |}
  end.

(** The component and its environment.  [history] lists every state a
    [setState] produced, oldest first; [issued] lists the [getPosts]
    calls made; [tasks] holds the invocations by number, [None] once an
    invocation has run to its end. *)
Record World := {
  comp : NewsLandingState;
  history : list NewsLandingState;
  issued : list GetPosts;
  tasks : list (option Task)
}.

(** Running a method body up to its suspension (or to its end). *)
Fixpoint run (a : Async) (w : World) : World :=
  match a with
  | Return => w
  | SetState p k =>
      let s' := setState (comp w) p in
      run k {| comp := s'; history := history w ++ [s'];
               issued := issued w; tasks := tasks w |}
  | AwaitAll n g t k =>
      {| comp := comp w; history := history w;
         issued := issued w ++ [n; g; t];
         tasks := tasks w ++ [Some {| got_news := None; got_gallery := None;
                                      got_top := None; cont := k |}] |}
  end.

Fixpoint replace_nth {A} (n : nat) (x : A) (l : list A) : list A :=
  match l, n with
  | [], _ => []
  | _ :: l', O => x :: l'
  | y :: l', S n' => y :: replace_nth n' x l'
  end.

Inductive Event :=
| CallFetchAll
| Settle (invocation : nat) (f : Feed) (o : Outcome).

(** One event of the single-threaded event loop.  A promise settles at
    most once; when the last of the three has settled, [Promise.all]
    resolves and the suspended method resumes. *)
Definition step (w : World) (e : Event) : option World :=
  match e with
  | CallFetchAll => Some (run fetchAll w)
  | Settle i f o =>
      match nth_error (tasks w) i with
      | Some (Some t) =>
          match got f t with
          | Some _ => None
          | None =>
              let t' := settle f (to_slot o) t in
              match got_news t', got_gallery t', got_top t' with
              | Some n, Some g, Some tp =>
                  Some (run (cont t' n g tp)
                          {| comp := comp w; history := history w;
                             issued := issued w;
                             tasks := replace_nth i None (tasks w) |})
              | _, _, _ =>
                  Some {| comp := comp w; history := history w;
                          issued := issued w;
                          tasks := replace_nth i (Some t') (tasks w) |}
              end
          end
      | _ => None
      end
  end.

Fixpoint exec (w : World) (evs : list Event) : option World :=
  match evs with
  | [] => Some w
  | e :: evs' =>
      match step w e with
      | Some w' => exec w' evs'
      | None => None
      end
  end.

(** The patches of [fetchAll], and the world right after a call. *)
Definition loading_patch : Patch :=
  {| set_newsPosts := Some Loading;
     set_galleryPosts := Some Loading;
     set_localTopPosts := Some Loading |}.

Definition result_patch (n g t : Slot) : Patch :=
  {| set_newsPosts := Some n;
     set_galleryPosts := Some g;
     set_localTopPosts := Some t |}.

Definition feed_eqb (a b : Feed) : bool :=
  match a, b with
  | News, News | Gallery, Gallery | TopLocal, TopLocal => true
  | _, _ => false
  end.

(** Three pairwise different feeds: an order in which the three
    requests of one call may settle. *)
Definition settle_order (f1 f2 f3 : Feed) : bool :=
  negb (feed_eqb f1 f2) && negb (feed_eqb f1 f3) && negb (feed_eqb f2 f3).

(** Construction and mount of the component. *)
Definition mount (isFirstLoad : bool) (routeData : RouteData) (isBrowser : bool)
  : World :=
  let s := constructor isFirstLoad routeData in
  run (componentWillMount s isBrowser)
      {| comp := s; history := []; issued := []; tasks := [] |}.

(* ================================================================= *)
(** ** The remaining sections of the page *)

(** [String.prototype.toUpperCase], exact on ASCII: [a]..[z] go to
    [A]..[Z]; other code units are left as they are. *)
Definition upper_unit (c : N) : N :=
  if ((97 <=? c) && (c <=? 122))%N then (c - 32)%N else c.

Definition toUpperCase (s : jsstring) : jsstring := map upper_unit s.

(** [String.prototype.charAt]: the empty string out of range. *)
Definition charAt (i : nat) (s : jsstring) : jsstring :=
  match nth_error s i with
  | Some c => [c]
  | None => []
  end.

(** [String.prototype.slice(n)] for a non-negative [n]. *)
Definition slice_from (n : nat) (s : jsstring) : jsstring := skipn n s.

(** Strings within ASCII, on which the case mappings above are those of
    JavaScript. *)
Definition ascii_string (s : jsstring) : Prop :=
  Forall (fun c => (c < 128)%N) s.

(** [formatShortcut]. *)
Definition formatShortcut (shortcut : jsstring) : jsstring :=
  toUpperCase (charAt 0 shortcut) ++ slice_from 1 shortcut.

Definition COMMUNITY_SHORTCUTS : list jsstring :=
  [JsString.lit "news"; JsString.lit "gallery"; JsString.lit "tech";
   JsString.lit "talks"; JsString.lit "club"; JsString.lit "blogs"].

Record ShortcutLink := {
  sl_key : jsstring;
  sl_to : jsstring;
  sl_text : jsstring
}.

(** [renderCommunityShortcuts]: one link per shortcut. *)
Definition renderCommunityShortcuts : list ShortcutLink :=
  map (fun shortcut =>
         {| sl_key := shortcut;
            sl_to := JsString.lit "/c/" ++ shortcut;
            sl_text := formatShortcut shortcut |})
      COMMUNITY_SHORTCUTS.

(** [renderError]: the message of the error and the action of the
    [Retry] button. *)
Record ErrorView := {
  ev_message : jsstring;
  ev_retry : Async
}.

Definition renderError (err : Error) (retry : Async) : ErrorView :=
  {| ev_message := message err; ev_retry := retry |}.

(** What [renderNewsPosts], [renderGalleryContent] and [renderTagCloud]
    return: a spinner, an error with its retry, a notice (the key of the
    translated text), the list of items, or an empty fragment. *)
Inductive FeedView (Item : Type) : Type :=
| FeedSpinner
| FeedError (e : ErrorView)
| FeedNotice (key : string)
| FeedItems (items : list Item)
| FeedNothing.

Arguments FeedSpinner {Item}.
Arguments FeedError {Item} e.
Arguments FeedNotice {Item} key.
Arguments FeedItems {Item} items.
Arguments FeedNothing {Item}.

Section Sections.

Variable isImage : jsstring -> bool.
Variable hostname : jsstring -> jsstring.

(** [renderNewsPosts]. *)
Definition renderNewsPosts (s : NewsLandingState) : FeedView NewsPostView :=
  match newsPosts s with
  | Loading => FeedSpinner
  | Failed err => FeedError (renderError err fetchAll)
  | Success data =>
      match posts data with
      | [] => FeedNotice "no_posts"
      | _ :: _ =>
          FeedItems (map (renderNewsPost isImage hostname) (posts data))
      end
  | Empty => FeedNothing
  end.

(** [renderGalleryContent]. *)
Definition renderGalleryContent (s : NewsLandingState)
  : FeedView GalleryItemView :=
  match galleryPosts s with
  | Loading => FeedSpinner
  | Failed err => FeedError (renderError err fetchAll)
  | Success data =>
      match posts data with
      | [] => FeedNotice "no_posts"
      | _ :: _ => FeedItems (map (renderGalleryItem isImage) (posts data))
      end
  | Empty => FeedNothing
  end.

End Sections.

(** [renderTagCloud]. *)
Definition renderTagCloud (s : NewsLandingState) : FeedView TagCloudEntry :=
  match localTopPosts s with
  | Loading => FeedSpinner
  | Failed err => FeedError (renderError err fetchAll)
  | Success data =>
      let tgs := buildTagCloud (posts data) in
      match tgs with
      | [] => FeedNotice "none_found"
      | _ :: _ => FeedItems tgs
      end
  | Empty => FeedNothing
  end.

(** The retry of the top-posts list: [renderLocalTopContent] passes
    [() => this.fetchAll()] to [renderError] like the other sections. *)
Definition renderLocalTopError (s : NewsLandingState) : option ErrorView :=
  match localTopPosts s with
  | Failed err => Some (renderError err fetchAll)
  | _ => None
  end.

(** The form each feed is fetched with. *)
Definition form_of (f : Feed) : GetPosts :=
  match f with
  | News => news_form
  | Gallery => gallery_form
  | TopLocal => top_form
  end.

(** [fetchInitialData]: the three [getPosts] calls of the server side,
    gathered by [Promise.all] into the route data.  The wrapped client
    is taken as the outcome it gives for each form. *)
Definition fetchInitialData (getPosts : GetPosts -> Outcome) : RouteData :=
  {| rd_newsPosts := to_slot (getPosts news_form);
     rd_galleryPosts := to_slot (getPosts gallery_form);
     rd_localTopPosts := to_slot (getPosts top_form) |}.

(** The rest of [fetchAll] after its [await]. *)
Definition fetchAll_cont (n g t : Slot) : Async :=
  SetState (result_patch n g t) Return.

(** Shapes of a component state: the three slots loading, or the three
    slots holding what their requests settled with. *)
Definition all_loading (s : NewsLandingState) : Prop :=
  forall f, slot f s = Loading.

Definition all_settled (s : NewsLandingState) : Prop :=
  forall f, exists o, slot f s = to_slot o.

(** What [issued] holds after [n] calls of [fetchAll]. *)
Fixpoint issued_by (n : nat) : list GetPosts :=
  match n with
  | O => []
  | S n' => issued_by n' ++ [news_form; gallery_form; top_form]
  end.

(** What holds of every suspended invocation: it is a call of
    [fetchAll], and what has settled so far is an outcome of a request. *)
Definition task_ok (ot : option Task) : Prop :=
  match ot with
  | Some t =>
      cont t = fetchAll_cont /\
      forall f v, got f t = Some v -> exists o, v = to_slot o
  | None => True
  end.

Definition state_ok (s0 s : NewsLandingState) : Prop :=
  (all_loading s \/ all_settled s) /\ isIsomorphic s = isIsomorphic s0.

(** The invariant of the worlds reached from a component constructed in
    state [s0]. *)
Definition world_ok (s0 : NewsLandingState) (w : World) : Prop :=
  Forall task_ok (tasks w) /\
  Forall (state_ok s0) (history w) /\
  issued w = issued_by (List.length (tasks w)) /\
  comp w = last (history w) s0.

Definition is_call (e : Event) : bool :=
  match e with CallFetchAll => true | Settle _ _ _ => false end.

Definition count_calls (evs : list Event) : nat :=
  List.length (filter is_call evs).

(** [2^e] as a rational, for any integer [e]. *)
Definition pow2 (e : Z) : Q := (2 ^ e)%Q.

(** The order of [sort_by_count]: larger counts first. *)
Definition by_count_desc (a b : jsstring * Z) : Prop := (snd b <= snd a)%Z.

(** The labels of the qualifying tags, and [first_seen]: a list without
    its repetitions, each element at its first place. *)
Definition qualifying_labels (ts : list Tag) : list jsstring :=
  map tag_label (filter qualifying ts).

Definition see (seen : list jsstring) (k : jsstring) : list jsstring :=
  if existsb (JsString.eqb k) seen then seen else seen ++ [k].

Definition first_seen (l : list jsstring) : list jsstring :=
  fold_left see l [].

(* ================================================================= *)
(** ** Sample data *)

(** A tag whose display name is [" Mini "]. *)
Definition padded_mini_tag : Tag :=
  {| tag_name := JsString.lit "condensed";
     display_name := Some (JsString.lit " Mini ");
     deleted := false |}.

Definition mini_tag : Tag :=
  {| tag_name := JsString.lit "mini"; display_name := None; deleted := false |}.

Definition plain_tag (label : string) : Tag :=
  {| tag_name := JsString.lit label; display_name := None; deleted := false |}.

(** A stand-in for the image predicate: urls ending in [".png"]. *)
Definition ends_in_png (u : jsstring) : bool :=
  JsString.eqb (rev (firstn 4 (rev u))) (JsString.lit ".png").

Definition host_of (u : jsstring) : jsstring := u.

Definition sample_post : Post :=
  {| id := 7; name := JsString.lit "Harbour at dawn";
     url := Some (JsString.lit "https://example.org/story");
     body := Some (JsString.lit "Some *markdown*");
     alt_text := None; nsfw := false;
     thumbnail_url := Some (JsString.lit "https://example.org/thumb.webp");
     score := 12; comments := 3 |}.

Definition sample_view (details : option ImageDetails) (tgs : list Tag)
  : PostView :=
  {| post := sample_post;
     creator := {| person_name := JsString.lit "ada" |};
     community := {| title := JsString.lit "Gallery"; community_nsfw := false |};
     image_details := details;
     tags := tgs |}.

Definition deleted_tag : Tag :=
  {| tag_name := JsString.lit "retired"; display_name := None; deleted := true |}.

(** A tag whose label is made of spaces only. *)
Definition blank_tag : Tag :=
  {| tag_name := []; display_name := Some (JsString.lit "   ");
     deleted := false |}.

(** One post with one tag: a single label, at once the most and the
    least frequent. *)
Definition single_label_posts : list PostView :=
  [sample_view None [plain_tag "rust"]].

Definition two_label_posts : list PostView :=
  [sample_view None [plain_tag "rust"; plain_tag "ocaml"; deleted_tag];
   sample_view None [plain_tag "rust"; blank_tag]].

Definition unlabelled_posts : list PostView :=
  [sample_view None [deleted_tag; blank_tag]].

Definition sample_page : GetPostsResponse :=
  {| posts := [sample_view None [plain_tag "rust"]] |}.

Definition empty_page : GetPostsResponse := {| posts := [] |}.

Definition timeout_error : Error :=
  {| message := JsString.lit "network timeout" |}.

(** A snapshot whose news entry is a failed request. *)
Definition failed_snapshot : RouteData :=
  {| rd_newsPosts := Failed timeout_error;
     rd_galleryPosts := Success sample_page;
     rd_localTopPosts := Success sample_page |}.

Definition good_snapshot : RouteData :=
  {| rd_newsPosts := Success sample_page;
     rd_galleryPosts := Success empty_page;
     rd_localTopPosts := Success sample_page |}.

Definition sample_outcome (f : Feed) : Outcome :=
  match f with
  | News => Ok sample_page
  | Gallery => Fault timeout_error
  | TopLocal => Ok empty_page
  end.

(** A server that answers each form as [sample_outcome] answers its
    feed. *)
Definition server_outcome (form : GetPosts) : Outcome :=
  match community_name form with
  | None => sample_outcome TopLocal
  | Some c =>
      if JsString.eqb c (JsString.lit "news") then sample_outcome News
      else sample_outcome Gallery
  end.

(** Twelve posts numbered 1 to 12, titled ["Post A"] to ["Post L"]; the
    eleventh carries the tag ["late"], the others the tag ["early"]. *)
Definition numbered_view (k : Z) : PostView :=
  {| post := {| id := k;
                name := JsString.lit "Post " ++ [Z.to_N (64 + k)];
                url := None; body := None; alt_text := None; nsfw := false;
                thumbnail_url := None; score := 100 - k; comments := k |};
     creator := {| person_name := JsString.lit "ada" |};
     community := {| title := JsString.lit "Board " ++ [Z.to_N (96 + k)];
                     community_nsfw := false |};
     image_details := None;
     tags := if (k =? 11)%Z then [plain_tag "late"] else [plain_tag "early"] |}.

Definition twelve_posts : list PostView :=
  map numbered_view [1; 2; 3; 4; 5; 6; 7; 8; 9; 10; 11; 12]%Z.

Definition twelve_page : GetPostsResponse := {| posts := twelve_posts |}.

Definition twelve_state : NewsLandingState :=
  {| newsPosts := Loading; galleryPosts := Loading;
     localTopPosts := Success twelve_page; isIsomorphic := false |}.

(* SAMPLES-END *)

(* ================================================================= *)
(** * Properties *)

(* ================================================================= *)
(** ** Strings and labels *)

Lemma eqb_eq (a b : jsstring) : JsString.eqb a b = true <-> a = b.
Proof.
  unfold JsString.eqb. destruct (list_eq_dec N.eq_dec a b); split; intro H;
    congruence.
Qed.

Lemma eqb_refl (a : jsstring) : JsString.eqb a a = true.
Proof. now apply eqb_eq. Qed.

Lemma eqb_neq (a b : jsstring) : JsString.eqb a b = false <-> a <> b.
Proof.
  unfold JsString.eqb. destruct (list_eq_dec N.eq_dec a b); split; intro H;
    congruence.
Qed.

Lemma truthy_nonempty (s : jsstring) : JsString.truthy s = true <-> s <> [].
Proof. destruct s; simpl; split; congruence. Qed.

(** The test of [hasMiniTag] looks at the lower-cased label as it
    stands: no trimming takes place. *)
Lemma is_mini_spec (tag : Tag) :
  is_mini tag = true <->
  JsString.toLowerCase (raw_label tag) = JsString.lit "mini".
Proof. unfold is_mini. apply eqb_eq. Qed.

Lemma hasMiniTag_spec (tgs : list Tag) :
  hasMiniTag tgs = true <-> exists tag, In tag tgs /\ is_mini tag = true.
Proof. unfold hasMiniTag. apply existsb_exists. Qed.

(** C2. The display label of [padded_mini_tag], trimmed and lower-cased,
    is ["mini"], and the tag cloud builder counts the tag under the
    trimmed label ["Mini"]; [hasMiniTag] compares the untrimmed label
    and answers [false]. *)
Theorem hasMiniTag_misses_padded_label :
  JsString.toLowerCase (tag_label padded_mini_tag) = JsString.lit "mini" /\
  count_tag [] padded_mini_tag = [(JsString.lit "Mini", 1%Z)] /\
  is_mini padded_mini_tag = false /\
  hasMiniTag [padded_mini_tag] = false.
Proof. repeat split; vm_compute; reflexivity. Qed.

(* ================================================================= *)
(** ** Presentation resolver *)

Section PresentationFacts.

Variable isImage : jsstring -> bool.
Variable hostname : jsstring -> jsstring.


(** Whatever [getImageUrl] returns is a non-empty string. *)
Lemma getImageUrl_truthy (pv : PostView) (i : jsstring) :
  getImageUrl isImage pv = Some i -> JsString.truthy i = true.
Proof.
  unfold getImageUrl.
  destruct (JsString.truthy_opt (details_link pv)) eqn:Hd.
  - intros E. rewrite E in Hd. exact Hd.
  - destruct (accepted isImage (url (post pv))) eqn:Hu.
    + intros E. rewrite E in Hu. simpl in Hu.
      now apply andb_true_iff in Hu.
    + destruct (accepted isImage (thumbnail_url (post pv))) eqn:Ht;
        [|discriminate].
      intros E. rewrite E in Ht. simpl in Ht.
      now apply andb_true_iff in Ht.
Qed.

(** [getImageUrl] returns [undefined] only when all three candidates
    have been turned down. *)
Lemma getImageUrl_none (pv : PostView) :
  getImageUrl isImage pv = None ->
  JsString.truthy_opt (details_link pv) = false /\
  accepted isImage (url (post pv)) = false /\
  accepted isImage (thumbnail_url (post pv)) = false.
Proof.
  unfold getImageUrl.
  destruct (JsString.truthy_opt (details_link pv)) eqn:Hd.
  { intros E. rewrite E in Hd. discriminate. }
  destruct (accepted isImage (url (post pv))) eqn:Hu.
  { intros E. rewrite E in Hu. discriminate. }
  destruct (accepted isImage (thumbnail_url (post pv))) eqn:Ht.
  { intros E. rewrite E in Ht. discriminate. }
  now intros _.
Qed.


(** When the test of [hasMiniTag] succeeds, the post is rendered
    without image and without body, whatever its url, thumbnail, image
    details and body are; the host name link is left out as well. *)
Theorem mini_post_is_condensed (pv : PostView) :
  hasMiniTag (tags pv) = true ->
  np_image (renderNewsPost isImage hostname pv) = None /\
  np_body (renderNewsPost isImage hostname pv) = None /\
  np_link (renderNewsPost isImage hostname pv) = None.
Proof.
  intros Hmini. unfold renderNewsPost. simpl. rewrite Hmini. simpl.
  repeat split.
  - now destruct (body (post pv)).
  - destruct (url (post pv)); [|reflexivity].
    now rewrite andb_false_r.
Qed.

(** C10. The image of a gallery item is the resolved image when there
    is one; otherwise it is the thumbnail url as it stands, which the
    image predicate has not accepted. *)
Theorem gallery_image_falls_back_to_raw_thumbnail (pv : PostView) :
  (forall i, getImageUrl isImage pv = Some i ->
     gi_image (renderGalleryItem isImage pv) = Some i) /\
  (getImageUrl isImage pv = None ->
     gi_image (renderGalleryItem isImage pv) =
       if JsString.truthy_opt (thumbnail_url (post pv))
       then thumbnail_url (post pv) else None) /\
  (forall th, getImageUrl isImage pv = None ->
     thumbnail_url (post pv) = Some th -> th <> [] ->
     isImage th = false /\
     gi_image (renderGalleryItem isImage pv) = Some th).
Proof.
  unfold renderGalleryItem, gallery_thumbnail. simpl.
  split; [|split].
  - intros i Hi. rewrite Hi. simpl.
    now rewrite (getImageUrl_truthy pv i Hi).
  - intros Hn. now rewrite Hn.
  - intros th Hn Hth Hne. apply truthy_nonempty in Hne. split.
    + apply getImageUrl_none in Hn as (_ & _ & Ht).
      rewrite Hth in Ht. simpl in Ht. now rewrite Hne in Ht.
    + rewrite Hn, Hth. simpl. now rewrite Hne.
Qed.

End PresentationFacts.


(** A post tagged [mini] that has a url, a thumbnail, image details and a
    body. *)
Lemma mini_post_is_condensed_witness :
  let pv := sample_view (Some {| link := JsString.lit "X" |}) [mini_tag] in
  np_image (renderNewsPost ends_in_png host_of pv) = None /\
  np_body (renderNewsPost ends_in_png host_of pv) = None /\
  np_link (renderNewsPost ends_in_png host_of pv) = None.
Proof.
  apply (mini_post_is_condensed ends_in_png host_of
           (sample_view (Some {| link := JsString.lit "X" |}) [mini_tag])).
  reflexivity.
Defined.

(** C6. A post whose only tag has the display name [" Mini "] carries a
    mini-marker: the trimmed label, lower-cased, is ["mini"].  The
    component tests the untrimmed label, finds no mini tag, and renders
    the post in full: the image of the image details and the body are
    both shown. *)
Theorem padded_mini_post_is_rendered_in_full :
  let pv := sample_view (Some {| link := JsString.lit "X" |})
                        [padded_mini_tag] in
  has_mini_marker (tags pv) = true /\
  hasMiniTag (tags pv) = false /\
  getImageUrl ends_in_png pv = Some (JsString.lit "X") /\
  np_image (renderNewsPost ends_in_png host_of pv) =
    Some {| img_href := JsString.lit "https://example.org/story";
            img_new_tab := true;
            img_src := JsString.lit "X";
            img_alt := None;
            img_nsfw := false |} /\
  np_body (renderNewsPost ends_in_png host_of pv) =
    Some (JsString.lit "Some *markdown*").
Proof. repeat split. Qed.

(** The thumbnail of [sample_post] ends in [".webp"]: the stand-in
    predicate turns it down, the gallery shows it. *)
Lemma gallery_image_falls_back_to_raw_thumbnail_witness :
  ends_in_png (JsString.lit "https://example.org/thumb.webp") = false /\
  gi_image (renderGalleryItem ends_in_png (sample_view None [])) =
    Some (JsString.lit "https://example.org/thumb.webp").
Proof.
  apply (proj2 (proj2 (gallery_image_falls_back_to_raw_thumbnail ends_in_png
                         (sample_view None [])))).
  - reflexivity.
  - reflexivity.
  - discriminate.
Defined.

(* ================================================================= *)
(** ** Top local posts *)


Lemma firstn_nth_error {A} (n i : nat) (l : list A) :
  nth_error (firstn n l) i = if (i <? n)%nat then nth_error l i else None.
Proof.
  revert i l. induction n as [|n IH]; intros i l.
  - simpl. now destruct i.
  - destruct l as [|x l]; simpl.
    + destruct i as [|i]; simpl; [reflexivity|].
      now destruct (S i <? S n)%nat.
    + destruct i as [|i]; simpl; [reflexivity|]. apply IH.
Qed.

(** C9. On a successful top-posts slot holding [n] posts, the section
    lists the first [min n 10] posts of the response in order and
    nothing past the tenth; with no post at all it shows the [no_posts]
    notice.  The row at index [i] shows the post at index [i]: it links
    to the id of that post and carries its title and the title of its
    community. *)
Theorem top_local_shows_first_ten (data : GetPostsResponse) :
  let shown := section_items (renderLocalTopContent (Success data)) in
  renderLocalTopContent (Success data) =
    match posts data with
    | [] => NoPosts
    | _ :: _ => Items (map renderTopItem (firstn 10 (posts data)))
    end /\
  shown = map renderTopItem (firstn 10 (posts data)) /\
  List.length shown = Nat.min (List.length (posts data)) 10 /\
  (forall i, nth_error shown i =
             if (i <? 10)%nat
             then option_map renderTopItem (nth_error (posts data) i)
             else None) /\
  (forall i p, (i < 10)%nat -> nth_error (posts data) i = Some p ->
     nth_error shown i =
       Some {| ti_id := id (post p);
               ti_title := name (post p);
               ti_community := title (community p) |}) /\
  (forall i row, nth_error shown i = Some row ->
     (i < 10)%nat /\
     exists p, nth_error (posts data) i = Some p /\
               ti_id row = id (post p) /\
               ti_title row = name (post p) /\
               ti_community row = title (community p)) /\
  (forall i, (10 <= i)%nat -> nth_error shown i = None).
Proof.
  assert (E : renderLocalTopContent (Success data) =
              match posts data with
              | [] => NoPosts
              | _ :: _ => Items (map renderTopItem (firstn 10 (posts data)))
              end).
  { unfold renderLocalTopContent, slice0. now destruct (posts data). }
  assert (S : section_items (renderLocalTopContent (Success data)) =
              map renderTopItem (firstn 10 (posts data))).
  { rewrite E. now destruct (posts data). }
  cbv zeta. rewrite S.
  assert (Hnth : forall i,
            nth_error (map renderTopItem (firstn 10 (posts data))) i =
            if (i <? 10)%nat
            then option_map renderTopItem (nth_error (posts data) i)
            else None).
  { intros i. rewrite nth_error_map, firstn_nth_error.
    now destruct (i <? 10)%nat. }
  split; [exact E|]. split; [reflexivity|]. split; [|split; [exact Hnth|]].
  - rewrite length_map, length_firstn. apply Nat.min_comm.
  - split; [|split].
    + intros i p Hi Hp. rewrite Hnth.
      destruct (Nat.ltb_spec i 10) as [_|]; [|lia].
      rewrite Hp. reflexivity.
    + intros i row. rewrite Hnth.
      destruct (Nat.ltb_spec i 10) as [Hi|]; [|discriminate].
      destruct (nth_error (posts data) i) as [p|]; [|discriminate].
      intros [= <-]. split; [exact Hi|]. exists p. repeat split.
    + intros i Hi. rewrite Hnth.
      destruct (Nat.ltb_spec i 10) as [|_]; [lia | reflexivity].
Qed.

(** Of [twelve_posts] the tenth is the last one listed: its row carries
    its id and titles, and there is no row for the eleventh. *)
Lemma top_local_shows_first_ten_witness :
  nth_error (section_items (renderLocalTopContent (Success twelve_page))) 9 =
    Some {| ti_id := 10;
            ti_title := JsString.lit "Post J";
            ti_community := JsString.lit "Board j" |} /\
  nth_error (section_items (renderLocalTopContent (Success twelve_page))) 10 =
    None.
Proof.
  destruct (top_local_shows_first_ten twelve_page)
    as (_ & _ & _ & _ & Hrow & _ & Hcut).
  split.
  - apply (Hrow 9%nat (numbered_view 10)); [lia | reflexivity].
  - apply (Hcut 10%nat). lia.
Defined.

(* ================================================================= *)
(** ** Tag cloud: which labels are counted *)

Lemma get_set (m : CountMap.t) (k k' : jsstring) (v : Z) :
  CountMap.get (CountMap.set m k v) k' =
  if JsString.eqb k k' then Some v else CountMap.get m k'.
Proof.
  induction m as [|[k0 v0] m IH]; simpl.
  - reflexivity.
  - destruct (JsString.eqb k0 k) eqn:E0; simpl.
    + apply eqb_eq in E0. subst k0.
      now destruct (JsString.eqb k k').
    + destruct (JsString.eqb k0 k') eqn:E1.
      * apply eqb_eq in E1. subst k0.
        destruct (JsString.eqb k k') eqn:E2; [|reflexivity].
        apply eqb_eq in E2. subst k'. rewrite eqb_refl in E0. discriminate.
      * exact IH.
Qed.

Lemma get_in_keys (m : CountMap.t) (k : jsstring) :
  In k (map fst m) <-> CountMap.get m k <> None.
Proof.
  induction m as [|[k0 v0] m IH]; simpl.
  - split; [tauto | congruence].
  - destruct (JsString.eqb k0 k) eqn:E.
    + apply eqb_eq in E. split; [discriminate | now left].
    + apply eqb_neq in E. rewrite <- IH. tauto.
Qed.

Lemma get_in (m : CountMap.t) (k : jsstring) (v : Z) :
  CountMap.get m k = Some v -> In (k, v) m.
Proof.
  induction m as [|[k0 v0] m IH]; simpl; [discriminate|].
  destruct (JsString.eqb k0 k) eqn:E.
  - apply eqb_eq in E. intros [= <-]. left. now subst.
  - intros H. right. now apply IH.
Qed.

Lemma set_keys_nodup (m : CountMap.t) (k : jsstring) (v : Z) :
  NoDup (map fst m) -> NoDup (map fst (CountMap.set m k v)).
Proof.
  intros Hnd. induction m as [|[k0 v0] m IH]; simpl.
  - constructor; [tauto | constructor].
  - inversion Hnd as [|? ? Hnotin Hnd']; subst.
    destruct (JsString.eqb k0 k) eqn:E; simpl.
    + apply eqb_eq in E. subst k0. now constructor.
    + constructor; [|now apply IH].
      rewrite get_in_keys, get_set.
      destruct (JsString.eqb k k0) eqn:E'.
      * apply eqb_eq in E'. subst. rewrite eqb_refl in E. discriminate.
      * now rewrite <- get_in_keys.
Qed.

Lemma in_get (m : CountMap.t) (k : jsstring) (v : Z) :
  NoDup (map fst m) -> In (k, v) m -> CountMap.get m k = Some v.
Proof.
  induction m as [|[k0 v0] m IH]; simpl; [tauto|].
  intros Hnd [E | Hin]; inversion Hnd as [|? ? Hnotin Hnd']; subst.
  - injection E as -> ->. now rewrite eqb_refl.
  - destruct (JsString.eqb k0 k) eqn:E.
    + apply eqb_eq in E. subst k0. exfalso. apply Hnotin.
      change k with (fst (k, v)). now apply in_map.
    + now apply IH.
Qed.

Lemma count_tag_unqualified (m : CountMap.t) (t : Tag) :
  qualifying t = false -> count_tag m t = m.
Proof.
  unfold qualifying, count_tag. destruct (deleted t); simpl; [reflexivity|].
  now intros ->.
Qed.

Lemma count_tag_qualified (m : CountMap.t) (t : Tag) :
  qualifying t = true ->
  count_tag m t =
  CountMap.set m (tag_label t)
    (match CountMap.get m (tag_label t) with Some c => c | None => 0 end + 1)%Z.
Proof.
  unfold qualifying, count_tag. destruct (deleted t); simpl; [discriminate|].
  now intros ->.
Qed.

Lemma tag_counts_flat (ps : list PostView) (m : CountMap.t) :
  fold_left count_post ps m = fold_left count_tag (all_tags ps) m.
Proof.
  revert m. induction ps as [|p ps IH]; intros m; simpl; [reflexivity|].
  unfold all_tags in *. rewrite fold_left_app. apply IH.
Qed.

(** After the loops, the count of a label is the number of qualifying
    tags that carry it, on top of what the map held before. *)
Lemma fold_count_tag_get (ts : list Tag) (m : CountMap.t) (k : jsstring) :
  CountMap.get (fold_left count_tag ts m) k =
  if (occurrences k ts =? 0)%Z then CountMap.get m k
  else Some (count_or_zero m k + occurrences k ts)%Z.
Proof.
  revert m. induction ts as [|t ts IH]; intros m; [reflexivity|].
  simpl fold_left. rewrite IH. unfold occurrences. simpl filter.
  destruct (qualifying t) eqn:Hq; simpl andb.
  - rewrite (count_tag_qualified _ _ Hq).
    unfold count_or_zero. rewrite get_set.
    destruct (JsString.eqb (tag_label t) k) eqn:E.
    + apply eqb_eq in E. subst k. simpl List.length.
      remember (List.length (filter
        (fun t0 => qualifying t0 &&
                   JsString.eqb (tag_label t0) (tag_label t)) ts)) as n.
      destruct (Z.eqb_spec (Z.of_nat n) 0);
        destruct (Z.eqb_spec (Z.of_nat (S n)) 0); try lia; f_equal; lia.
    + reflexivity.
  - now rewrite (count_tag_unqualified _ _ Hq).
Qed.

Lemma fold_count_tag_nodup (ts : list Tag) (m : CountMap.t) :
  NoDup (map fst m) -> NoDup (map fst (fold_left count_tag ts m)).
Proof.
  revert m. induction ts as [|t ts IH]; intros m Hnd; [exact Hnd|].
  simpl. apply IH. destruct (qualifying t) eqn:Hq.
  - rewrite (count_tag_qualified _ _ Hq). now apply set_keys_nodup.
  - now rewrite (count_tag_unqualified _ _ Hq).
Qed.

Lemma tag_counts_get (ps : list PostView) (k : jsstring) :
  CountMap.get (tag_counts ps) k =
  if (occurrences k (all_tags ps) =? 0)%Z then None
  else Some (occurrences k (all_tags ps)).
Proof.
  unfold tag_counts. rewrite tag_counts_flat, fold_count_tag_get.
  destruct (_ =? 0)%Z; [reflexivity|]. f_equal.
Qed.

Lemma tag_counts_nodup (ps : list PostView) : NoDup (map fst (tag_counts ps)).
Proof.
  unfold tag_counts. rewrite tag_counts_flat.
  apply fold_count_tag_nodup. constructor.
Qed.

Lemma occurrences_pos (k : jsstring) (ts : list Tag) :
  (occurrences k ts <> 0)%Z <->
  exists t, In t ts /\ qualifying t = true /\ tag_label t = k.
Proof.
  unfold occurrences. split.
  - intros H.
    destruct (filter _ ts) as [|t l] eqn:E; [simpl in H; lia|].
    assert (Hin : In t (filter
      (fun t => qualifying t && JsString.eqb (tag_label t) k) ts)).
    { rewrite E. now left. }
    apply filter_In in Hin as [Hin Hb]. apply andb_true_iff in Hb as [Hq He].
    exists t. repeat split; auto. now apply eqb_eq.
  - intros (t & Hin & Hq & <-).
    assert (Hf : In t (filter
      (fun t' => qualifying t' && JsString.eqb (tag_label t') (tag_label t)) ts)).
    { apply filter_In. split; [exact Hin|]. now rewrite Hq, eqb_refl. }
    destruct (filter _ ts); [destruct Hf | simpl; lia].
Qed.

Lemma in_all_tags (ps : list PostView) (t : Tag) :
  In t (all_tags ps) <-> exists p, In p ps /\ In t (tags p).
Proof. unfold all_tags. apply in_flat_map. Qed.

Lemma sort_insert_perm (x : jsstring * Z) (l : list (jsstring * Z)) :
  Permutation (sort_insert x l) (x :: l).
Proof.
  induction l as [|y l IH]; simpl; [reflexivity|].
  destruct (snd x <? snd y)%Z; [|reflexivity].
  rewrite IH. apply perm_swap.
Qed.

Lemma sort_by_count_perm (l : list (jsstring * Z)) :
  Permutation (sort_by_count l) l.
Proof.
  induction l as [|x l IH]; simpl; [reflexivity|].
  rewrite sort_insert_perm. now constructor.
Qed.

(** The entries of the cloud are the entries of the count map, sorted,
    each with the size of its count. *)
Lemma buildTagCloud_entries (ps : list PostView) :
  buildTagCloud ps =
  map (fun e => {| tc_name := fst e;
                   tc_size := tag_size (Math_max (map snd (tag_counts ps)))
                                       (Math_min (map snd (tag_counts ps)))
                                       (snd e) |})
      (sort_by_count (tag_counts ps)).
Proof.
  unfold buildTagCloud. now destruct (tag_counts ps).
Qed.

Lemma buildTagCloud_in (ps : list PostView) (e : TagCloudEntry) :
  In e (buildTagCloud ps) <->
  exists c, CountMap.get (tag_counts ps) (tc_name e) = Some c /\
            tc_size e = tag_size (Math_max (map snd (tag_counts ps)))
                                 (Math_min (map snd (tag_counts ps))) c.
Proof.
  rewrite buildTagCloud_entries, in_map_iff. split.
  - intros ([k c] & <- & Hin). simpl. exists c. split; [|reflexivity].
    apply in_get; [apply tag_counts_nodup|].
    now apply (Permutation_in _ (sort_by_count_perm _)).
  - intros (c & Hget & Hsize). exists (tc_name e, c). split.
    + destruct e as [nm sz]. simpl in *. now rewrite Hsize.
    + apply (Permutation_in _ (Permutation_sym (sort_by_count_perm _))).
      now apply get_in.
Qed.

Lemma qualifying_spec (t : Tag) :
  qualifying t = true <-> deleted t = false /\ tag_label t <> [].
Proof.
  unfold qualifying. rewrite andb_true_iff, negb_true_iff, truthy_nonempty.
  tauto.
Qed.

Lemma get_all_none (m : CountMap.t) :
  (forall k, CountMap.get m k = None) -> m = [].
Proof.
  destruct m as [|[k v] m]; [reflexivity|].
  intros H. specialize (H k). simpl in H. rewrite eqb_refl in H. discriminate.
Qed.

(** C8. Every entry of the cloud carries the trimmed, non-empty label of
    a tag that is not deleted; the count behind a label is the number of
    non-deleted tags with that non-empty trimmed label, so that deleted
    tags and empty labels add to no count; every qualifying tag has its
    label in the cloud.  The cloud of no posts is empty, and so is the
    cloud of posts whose tags are all deleted or empty-labelled. *)
Theorem buildTagCloud_excludes_deleted_and_empty (ps : list PostView) :
  (forall e, In e (buildTagCloud ps) ->
     tc_name e <> [] /\
     exists p t, In p ps /\ In t (tags p) /\
                 deleted t = false /\ tag_label t = tc_name e) /\
  (forall k, CountMap.get (tag_counts ps) k =
             if (occurrences k (all_tags ps) =? 0)%Z then None
             else Some (occurrences k (all_tags ps))) /\
  (forall p t, In p ps -> In t (tags p) ->
     deleted t = false -> tag_label t <> [] ->
     exists e, In e (buildTagCloud ps) /\ tc_name e = tag_label t) /\
  buildTagCloud [] = [] /\
  ((forall p t, In p ps -> In t (tags p) ->
      deleted t = true \/ tag_label t = []) ->
   buildTagCloud ps = []).
Proof.
  split; [|split; [|split; [|split]]].
  - intros e He. apply buildTagCloud_in in He as (c & Hget & _).
    rewrite tag_counts_get in Hget.
    destruct (Z.eqb_spec (occurrences (tc_name e) (all_tags ps)) 0) as [|Hne];
      [discriminate|].
    apply occurrences_pos in Hne as (t & Hin & Hq & Hl).
    apply qualifying_spec in Hq as [Hd Hnon].
    apply in_all_tags in Hin as (p & Hp & Ht).
    split; [now rewrite <- Hl|]. now exists p, t.
  - apply tag_counts_get.
  - intros p t Hp Ht Hd Hnon.
    assert (Hocc : (occurrences (tag_label t) (all_tags ps) <> 0)%Z).
    { apply occurrences_pos. exists t. repeat split.
      - apply in_all_tags. now exists p.
      - now apply qualifying_spec. }
    set (c := occurrences (tag_label t) (all_tags ps)) in *.
    exists {| tc_name := tag_label t;
              tc_size := tag_size (Math_max (map snd (tag_counts ps)))
                                  (Math_min (map snd (tag_counts ps))) c |}.
    split; [|reflexivity].
    apply buildTagCloud_in. exists c. split; [|reflexivity].
    simpl. rewrite tag_counts_get. fold c.
    now destruct (Z.eqb_spec c 0).
  - reflexivity.
  - intros Hall. unfold buildTagCloud.
    rewrite (get_all_none (tag_counts ps)); [reflexivity|].
    intros k. rewrite tag_counts_get.
    destruct (Z.eqb_spec (occurrences k (all_tags ps)) 0) as [|Hne];
      [reflexivity|].
    apply occurrences_pos in Hne as (t & Hin & Hq & _).
    apply qualifying_spec in Hq as [Hd Hnon].
    apply in_all_tags in Hin as (p & Hp & Ht).
    destruct (Hall p t Hp Ht) as [Hd' | He]; congruence.
Qed.

(* ================================================================= *)
(** ** Binary64 rounding *)

Module Binary64Facts.

Import Binary64.
Local Open Scope Z_scope.

Lemma round_half_even_bounds (n d : Z) :
  0 < d -> 0 <= n ->
  0 <= round_half_even n d /\
  2 * (round_half_even n d * d - n) <= d /\
  2 * (n - round_half_even n d * d) <= d.
Proof.
  intros Hd Hn. unfold round_half_even.
  pose proof (Z.div_mod n d ltac:(lia)) as Hdm.
  pose proof (Z.mod_pos_bound n d Hd) as Hr.
  pose proof (Z.div_pos n d Hn Hd) as Hq.
  destruct (Z.ltb_spec (2 * (n mod d)) d);
    [|destruct (Z.ltb_spec d (2 * (n mod d))); [|destruct (Z.even (n / d))]];
    nia.
Qed.

Lemma ilog2_small (n d : Z) :
  0 < n -> 0 < d -> n < 4 * d -> ilog2 n d <= 1.
Proof.
  intros Hn Hd Hlt. unfold ilog2, shl.
  pose proof (Z.log2_spec n Hn) as [Hn1 Hn2].
  pose proof (Z.log2_spec d Hd) as [Hd1 Hd2].
  pose proof (Z.log2_nonneg n). pose proof (Z.log2_nonneg d).
  set (a := Z.log2 n) in *. set (b := Z.log2 d) in *.
  destruct (Z.ltb_spec (n * 2 ^ Z.max (- (a - b)) 0) (d * 2 ^ Z.max (a - b) 0))
    as [Hc | Hc].
  - destruct (Z_le_gt_dec (a - b) 2) as [|Hbig]; [lia|]. exfalso.
    assert (2 ^ (b + 3) <= 2 ^ a) by (apply Z.pow_le_mono_r; lia).
    rewrite Z.pow_add_r in H1 by lia.
    rewrite Z.pow_succ_r in Hd2 by lia.
    change (2 ^ 3) with 8 in H1. lia.
  - destruct (Z_le_gt_dec (a - b) 1) as [|Hbig]; [lia|]. exfalso.
    rewrite (Z.max_r (- (a - b)) 0) in Hc by lia.
    rewrite (Z.max_l (a - b) 0) in Hc by lia.
    assert (2 ^ 2 <= 2 ^ (a - b)) by (apply Z.pow_le_mono_r; lia).
    change (2 ^ 2) with 4 in H1. change (2 ^ 0) with 1 in Hc. nia.
Qed.

Lemma rnd_compat (q q' : Q) : q == q' -> rnd q = rnd q'.
Proof.
  intros H. unfold rnd. now rewrite (Qred_complete q q' H).
Qed.

(** Below 4 a float is within [2^-52] of the rational it rounds. *)
Lemma rnd_err (q : Q) :
  (0 <= q)%Q -> (q < 4)%Q ->
  (0 <= rnd q)%Q /\ (rnd q - q <= eps)%Q /\ (q - rnd q <= eps)%Q.
Proof.
  intros H0 H4.
  pose proof (Qred_correct q) as Hred.
  unfold rnd. destruct (Qred q) as [n d] eqn:Eq. cbn [Qnum Qden].
  assert (Hn : 0 <= n).
  { rewrite <- Hred in H0. unfold Qle in H0. simpl in H0. lia. }
  destruct (Z.eqb_spec n 0) as [-> | Hnz].
  - assert (q == 0)%Q as -> by (rewrite <- Hred; reflexivity).
    unfold eps, Qle. simpl. lia.
  - assert (Hpos : 0 < n) by lia.
    assert (H4' : n < 4 * Zpos d).
    { rewrite <- Hred in H4. unfold Qlt in H4. simpl in H4. lia. }
    rewrite (Z.abs_eq n) by lia.
    rewrite (Z.sgn_pos n) by lia.
    pose proof (ilog2_small n (Zpos d) Hpos ltac:(lia) H4') as Hl.
    unfold ulp_exp.
    set (e := Z.max (ilog2 n (Z.pos d) - 52) (-1074)).
    assert (He : -1074 <= e <= -51) by (unfold e; lia).
    clearbody e.
    unfold shl.
    rewrite (Z.max_l (- e) 0), (Z.max_r e 0) by lia.
    change (2 ^ 0) with 1. rewrite !Z.mul_1_r, !Z.mul_1_l.
    set (P := 2 ^ (- e)).
    assert (HP : 2 ^ 51 <= P) by (apply Z.pow_le_mono_r; lia).
    change (2 ^ 51) with 2251799813685248 in HP.
    destruct (round_half_even_bounds (n * P) (Zpos d) ltac:(lia) ltac:(nia))
      as (Hm0 & Hm1 & Hm2).
    set (m := round_half_even (n * P) (Z.pos d)) in *. clearbody m P.
    rewrite Qred_correct. rewrite <- Hred.
    unfold eps, Qle, Qminus, Qplus, Qopp. cbn [Qnum Qden].
    rewrite !Pos2Z.inj_mul, !Z2Pos.id by lia.
    repeat split; nia.
Qed.

(** [rnd] on known binary64 values: the literals [0.1] and [1.225],
    [1/3], a tie above [2^53] (to even), the smallest subnormal, half of
    it (to zero), and the exactly representable [1] and [0.5]. *)
Example rnd_known_values :
  rnd (1 # 10) = (3602879701896397 # 36028797018963968)%Q /\
  rnd (1225 # 1000) = (2758454771764429 # 2251799813685248)%Q /\
  rnd (1 # 3) = (6004799503160661 # 18014398509481984)%Q /\
  rnd (inject_Z (2 ^ 53 + 1)) = inject_Z (2 ^ 53) /\
  rnd (inject_Z (2 ^ 53 + 3)) = inject_Z (2 ^ 53 + 4) /\
  rnd (1 # Z.to_pos (2 ^ 1074)) = (1 # Z.to_pos (2 ^ 1074))%Q /\
  rnd (1 # Z.to_pos (2 ^ 1075)) = 0%Q /\
  rnd (- (1 # 10)) = (- (3602879701896397 # 36028797018963968))%Q /\
  rnd 1 = 1%Q /\ rnd (1 # 2) = (1 # 2)%Q.
Proof. repeat split; vm_compute; reflexivity. Qed.

End Binary64Facts.

(* ================================================================= *)
(** ** Tag cloud: sizes *)

Section TagSizes.

Import Binary64 Binary64Facts.
Local Open Scope Q_scope.

Lemma minSize_value : minSize = 7656119366529843 # 9007199254740992.
Proof. vm_compute. reflexivity. Qed.

Lemma maxSize_value : maxSize = 3602879701896397 # 2251799813685248.
Proof. vm_compute. reflexivity. Qed.

Lemma span_value :
  Binary64.sub maxSize minSize = 6755399441055745 # 9007199254740992.
Proof. vm_compute. reflexivity. Qed.

(** Whatever the ratio in [[0, 1]] (up to one rounding), the size before
    printing stays strictly inside the interval that prints as
    ["0.85"] .. ["1.60"]. *)
Lemma raw_size_bounds (r : Q) :
  0 <= r -> r <= 1 + eps ->
  845 # 1000 <= raw_size r /\ raw_size r <= 1604 # 1000.
Proof.
  intros Hr0 Hr1. unfold raw_size, Binary64.add, Binary64.mul.
  rewrite span_value, minSize_value. unfold eps in *.
  set (D := 6755399441055745 # 9007199254740992) in *.
  assert (HD0 : 0 <= D * r) by (unfold D; nra).
  assert (HD4 : D * r < 4) by (unfold D; lra).
  destruct (rnd_err (D * r) HD0 HD4) as (Hy0 & Hy1 & Hy2).
  set (y := rnd (D * r)) in *. unfold eps in *.
  set (mS := 7656119366529843 # 9007199254740992) in *.
  assert (HS0 : 0 <= mS + y) by (unfold mS; lra).
  assert (HS4 : mS + y < 4) by (unfold mS, D in *; lra).
  destruct (rnd_err (mS + y) HS0 HS4) as (Hx0 & Hx1 & Hx2).
  unfold eps, mS, D in *. split; lra.
Qed.

Lemma toFixed2_bounds (x : Q) :
  845 # 1000 <= x -> x <= 1604 # 1000 ->
  (85 <= toFixed2 x <= 160)%Z.
Proof.
  intros Hlo Hhi. unfold toFixed2.
  assert (Hpos : (0 < Qnum x)%Z).
  { assert (0 < x) as Hx by lra. unfold Qlt in Hx. simpl in Hx. lia. }
  rewrite (Z.sgn_pos _ Hpos), Z.mul_1_l.
  assert (Habs : Qabs x == x) by (apply Qabs_pos; lra).
  split.
  - change 85%Z with (Qfloor (85 # 1)). apply Qfloor_resp_le.
    rewrite Habs. lra.
  - change 160%Z with (Qfloor (1609 # 10)). apply Qfloor_resp_le.
    rewrite Habs. lra.
Qed.

Lemma parseFloat2_range (n : Z) :
  (85 <= n <= 160)%Z ->
  minSize <= parseFloat2 n /\ parseFloat2 n <= maxSize.
Proof.
  intros Hn.
  assert (Hall : forallb (fun k =>
            Qle_bool minSize (parseFloat2 (85 + Z.of_nat k)) &&
            Qle_bool (parseFloat2 (85 + Z.of_nat k)) maxSize)
          (seq 0 76) = true) by (vm_compute; reflexivity).
  rewrite forallb_forall in Hall.
  specialize (Hall (Z.to_nat (n - 85))).
  rewrite Z2Nat.id in Hall by lia.
  replace (85 + (n - 85))%Z with n in Hall by lia.
  rewrite andb_true_iff, !Qle_bool_iff in Hall.
  apply Hall. apply in_seq. lia.
Qed.

Lemma tag_ratio_bounds (M m c : Z) :
  (m <= c <= M)%Z ->
  0 <= tag_ratio M m c /\ tag_ratio M m c <= 1 + eps.
Proof.
  intros Hc. unfold tag_ratio, eps.
  destruct (Z.eqb_spec M m) as [|Hne]; [split; lra|].
  unfold Binary64.div, of_int.
  assert (Hq : inject_Z (c - m) / inject_Z (M - m) == (c - m) # Z.to_pos (M - m)).
  { unfold Qdiv, Qinv, inject_Z, Qmult, Qeq. simpl.
    destruct (M - m)%Z eqn:E; try lia. simpl. lia. }
  rewrite (rnd_compat _ _ Hq).
  assert (H0 : 0 <= (c - m) # Z.to_pos (M - m)).
  { unfold Qle. simpl. lia. }
  assert (H1 : (c - m) # Z.to_pos (M - m) <= 1).
  { unfold Qle. simpl. rewrite Z2Pos.id by lia. lia. }
  destruct (rnd_err _ H0 ltac:(lra)) as (R0 & R1 & R2).
  unfold eps in *. split; lra.
Qed.

(** The size of any count between [min] and [max]. *)
Lemma tag_size_bounds (M m c : Z) :
  (m <= c <= M)%Z ->
  (85 <= toFixed2 (raw_size (tag_ratio M m c)) <= 160)%Z /\
  minSize <= tag_size M m c /\ tag_size M m c <= maxSize.
Proof.
  intros Hc.
  destruct (tag_ratio_bounds M m c Hc) as [Hr0 Hr1].
  destruct (raw_size_bounds _ Hr0 Hr1) as [Hx0 Hx1].
  pose proof (toFixed2_bounds _ Hx0 Hx1) as Hn.
  split; [exact Hn|]. unfold tag_size. now apply parseFloat2_range.
Qed.

(** The largest count, when it differs from the smallest, prints as
    ["1.60"]. *)
Lemma tag_size_of_max (M m : Z) :
  M <> m -> tag_size M m M = parseFloat2 160.
Proof.
  intros Hne. unfold tag_size, tag_ratio.
  destruct (Z.eqb_spec M m) as [|_]; [contradiction|].
  unfold Binary64.div, of_int.
  assert (Hq : inject_Z (M - m) / inject_Z (M - m) == 1).
  { apply Qmult_inv_r. unfold Qeq, inject_Z. simpl. lia. }
  rewrite (rnd_compat _ _ Hq). vm_compute. reflexivity.
Qed.

(** Equal counts print as ["1.23"]. *)
Lemma tag_size_of_equal (M c : Z) : tag_size M M c = parseFloat2 123.
Proof.
  unfold tag_size, tag_ratio. rewrite Z.eqb_refl. vm_compute. reflexivity.
Qed.

End TagSizes.

Lemma fold_max_spec (l : list Z) (a : Z) :
  (a <= fold_left Z.max l a)%Z /\
  (forall x, In x l -> (x <= fold_left Z.max l a)%Z) /\
  (fold_left Z.max l a = a \/ In (fold_left Z.max l a) l).
Proof.
  revert a. induction l as [|y l IH]; intros a; simpl.
  - repeat split; [lia | tauto | now left].
  - destruct (IH (Z.max a y)) as (H1 & H2 & H3). repeat split.
    + lia.
    + intros x [<- | Hx]; [lia | now apply H2].
    + destruct H3 as [E | Hin]; [|now right; right].
      rewrite E. destruct (Z.max_spec a y) as [[_ ->] | [_ ->]]; auto.
Qed.

Lemma fold_min_spec (l : list Z) (a : Z) :
  (fold_left Z.min l a <= a)%Z /\
  (forall x, In x l -> (fold_left Z.min l a <= x)%Z) /\
  (fold_left Z.min l a = a \/ In (fold_left Z.min l a) l).
Proof.
  revert a. induction l as [|y l IH]; intros a; simpl.
  - repeat split; [lia | tauto | now left].
  - destruct (IH (Z.min a y)) as (H1 & H2 & H3). repeat split.
    + lia.
    + intros x [<- | Hx]; [lia | now apply H2].
    + destruct H3 as [E | Hin]; [|now right; right].
      rewrite E. destruct (Z.min_spec a y) as [[_ ->] | [_ ->]]; auto.
Qed.

Lemma Math_max_spec (l : list Z) (x : Z) :
  In x l -> (x <= Math_max l)%Z /\ In (Math_max l) l.
Proof.
  destruct l as [|a l]; [intros []|]. unfold Math_max.
  destruct (fold_max_spec l a) as (H1 & H2 & H3). intros Hin. split.
  - destruct Hin as [<- | Hin]; [exact H1 | now apply H2].
  - destruct H3 as [-> | H3]; [now left | now right].
Qed.

Lemma Math_min_spec (l : list Z) (x : Z) :
  In x l -> (Math_min l <= x)%Z /\ In (Math_min l) l.
Proof.
  destruct l as [|a l]; [intros []|]. unfold Math_min.
  destruct (fold_min_spec l a) as (H1 & H2 & H3). intros Hin. split.
  - destruct Hin as [<- | Hin]; [exact H1 | now apply H2].
  - destruct H3 as [-> | H3]; [now left | now right].
Qed.

Lemma tag_counts_get_some (ps : list PostView) (k : jsstring) (c : Z) :
  CountMap.get (tag_counts ps) k = Some c <->
  c = count_of ps k /\ c <> 0%Z.
Proof.
  rewrite tag_counts_get. unfold count_of.
  destruct (Z.eqb_spec (occurrences k (all_tags ps)) 0) as [E | E]; split.
  - discriminate.
  - intros [-> ?]. contradiction.
  - intros [= <-]. now split.
  - intros [-> _]. reflexivity.
Qed.

Lemma in_counts (ps : list PostView) (c : Z) :
  In c (map snd (tag_counts ps)) <->
  exists k, c = count_of ps k /\ c <> 0%Z.
Proof.
  rewrite in_map_iff. split.
  - intros ([k c'] & <- & Hin). exists k. apply tag_counts_get_some.
    apply in_get; [apply tag_counts_nodup | exact Hin].
  - intros (k & Hc). apply tag_counts_get_some in Hc.
    exists (k, c). split; [reflexivity | now apply get_in].
Qed.

Lemma entry_of_count (ps : list PostView) (k : jsstring) (c : Z) :
  CountMap.get (tag_counts ps) k = Some c ->
  In {| tc_name := k;
        tc_size := tag_size (Math_max (map snd (tag_counts ps)))
                            (Math_min (map snd (tag_counts ps))) c |}
     (buildTagCloud ps).
Proof.
  intros Hget. apply buildTagCloud_in. exists c. split; [exact Hget | reflexivity].
Qed.

Lemma entry_count (ps : list PostView) (e : TagCloudEntry) :
  In e (buildTagCloud ps) ->
  In (count_of ps (tc_name e)) (map snd (tag_counts ps)) /\
  tc_size e = tag_size (Math_max (map snd (tag_counts ps)))
                       (Math_min (map snd (tag_counts ps)))
                       (count_of ps (tc_name e)).
Proof.
  intros He. apply buildTagCloud_in in He as (c & Hget & Hsize).
  pose proof Hget as Hc. apply tag_counts_get_some in Hc as [-> Hnz].
  split; [|exact Hsize].
  apply in_counts. exists (tc_name e). split; [reflexivity | exact Hnz].
Qed.

Lemma count_has_entry (ps : list PostView) (c : Z) :
  In c (map snd (tag_counts ps)) ->
  exists e, In e (buildTagCloud ps) /\ count_of ps (tc_name e) = c.
Proof.
  intros Hin. apply in_counts in Hin as (k & Hc & Hnz).
  eexists. split.
  - apply (entry_of_count ps k c). apply tag_counts_get_some.
    split; [exact Hc | exact Hnz].
  - simpl. symmetry. exact Hc.
Qed.

(** C7, as the code has it.  Every size of the cloud is one of the
    two-decimal numbers 0.85 .. 1.60, hence between [minSize] and
    [maxSize]; an entry whose count is the largest gets 1.60 as soon as
    some entry has another count; when all counts are equal every entry
    gets 1.23, which is what [toFixed(2)] prints for the midpoint. *)
Theorem tag_cloud_sizes (ps : list PostView) :
  (forall e, In e (buildTagCloud ps) ->
     (exists n, (85 <= n <= 160)%Z /\ tc_size e = Binary64.parseFloat2 n) /\
     (minSize <= tc_size e)%Q /\ (tc_size e <= maxSize)%Q) /\
  (forall e, In e (buildTagCloud ps) ->
     (forall e', In e' (buildTagCloud ps) ->
        (count_of ps (tc_name e') <= count_of ps (tc_name e))%Z) ->
     (exists e', In e' (buildTagCloud ps) /\
        count_of ps (tc_name e') <> count_of ps (tc_name e)) ->
     tc_size e = Binary64.parseFloat2 160 /\ tc_size e = maxSize) /\
  ((forall e e', In e (buildTagCloud ps) -> In e' (buildTagCloud ps) ->
      count_of ps (tc_name e) = count_of ps (tc_name e')) ->
   forall e, In e (buildTagCloud ps) ->
     tc_size e = Binary64.parseFloat2 123).
Proof.
  set (M := Math_max (map snd (tag_counts ps))).
  set (m := Math_min (map snd (tag_counts ps))).
  split; [|split].
  - intros e He. apply entry_count in He as [Hin ->]. fold M m.
    destruct (Math_max_spec _ _ Hin) as [HM _].
    destruct (Math_min_spec _ _ Hin) as [Hm _].
    fold M in HM. fold m in Hm.
    destruct (tag_size_bounds M m (count_of ps (tc_name e)) (conj Hm HM))
      as (Hn & Hlo & Hhi).
    split; [|split; [exact Hlo | exact Hhi]].
    eexists. split; [exact Hn | reflexivity].
  - intros e He Hmax (e' & He' & Hdiff).
    apply entry_count in He as [Hin ->]. fold M m.
    apply entry_count in He' as [Hin' _].
    destruct (Math_max_spec _ _ Hin) as [HM HMin].
    destruct (Math_min_spec _ _ Hin') as [Hm' _].
    destruct (Math_max_spec _ _ Hin') as [HM' _].
    apply count_has_entry in HMin as (eM & HeM & HcM).
    specialize (Hmax eM HeM). fold M in HM, HM', HcM. fold m in Hm'.
    assert (E : count_of ps (tc_name e) = M) by lia.
    rewrite E.
    assert (Hne : M <> m) by lia.
    rewrite (tag_size_of_max M m Hne). split; [reflexivity|].
    vm_compute. reflexivity.
  - intros Hall e He.
    pose proof He as He0.
    apply entry_count in He as [Hin ->]. fold M m.
    destruct (Math_max_spec _ _ Hin) as [_ HMin].
    destruct (Math_min_spec _ _ Hin) as [_ Hmin].
    apply count_has_entry in HMin as (eM & HeM & HcM).
    apply count_has_entry in Hmin as (em & Hem & Hcm).
    fold M in HcM. fold m in Hcm.
    assert (E : M = m) by (rewrite <- HcM, <- Hcm; apply Hall; assumption).
    rewrite <- E. apply tag_size_of_equal.
Qed.

(** On [two_label_posts] the label ["rust"] is counted twice and
    ["ocaml"] once. *)
Lemma tag_cloud_sizes_witness :
  exists e, In e (buildTagCloud two_label_posts) /\
            tc_name e = JsString.lit "rust" /\
            tc_size e = Binary64.parseFloat2 160 /\ tc_size e = maxSize.
Proof.
  exists {| tc_name := JsString.lit "rust"; tc_size := maxSize |}.
  assert (Hin : In {| tc_name := JsString.lit "rust"; tc_size := maxSize |}
                   (buildTagCloud two_label_posts))
    by (left; vm_compute; reflexivity).
  split; [exact Hin|]. split; [reflexivity|].
  apply (proj1 (proj2 (tag_cloud_sizes two_label_posts))
           {| tc_name := JsString.lit "rust"; tc_size := maxSize |} Hin).
  - intros e' [<- | [<- | []]]; vm_compute; discriminate.
  - exists {| tc_name := JsString.lit "ocaml"; tc_size := minSize |}.
    split; [right; left; vm_compute; reflexivity | vm_compute; discriminate].
Defined.

(** C7, as stated, at [single_label_posts]: the one label is the unique
    most frequent one and all counts are equal, yet its size is 1.23,
    neither 1.225 nor 1.60. *)
Lemma single_label_size_is_1_23 :
  buildTagCloud single_label_posts =
    [{| tc_name := JsString.lit "rust";
        tc_size := Binary64.parseFloat2 123 |}] /\
  ~ (Binary64.parseFloat2 123 == 1225 # 1000)%Q /\
  Binary64.parseFloat2 123 <> Binary64.rnd (1225 # 1000) /\
  Binary64.parseFloat2 123 <> maxSize /\
  Binary64.toFixed2 (raw_size (1 # 2)) = 123%Z.
Proof.
  repeat split; vm_compute; discriminate.
Qed.

(* ================================================================= *)
(** ** Fetch orchestrator *)

Lemma nth_error_last {A} (l : list A) (x : A) :
  nth_error (l ++ [x]) (List.length l) = Some x.
Proof. induction l as [|y l IH]; simpl; [reflexivity | exact IH]. Qed.

Lemma nth_error_past {A} (l : list A) : nth_error l (List.length l) = None.
Proof. induction l as [|y l IH]; simpl; [reflexivity | exact IH]. Qed.


(** A step never rewrites the past: the history only grows. *)
Lemma run_history (a : Async) (w : World) :
  exists l, history (run a w) = history w ++ l.
Proof.
  revert w. induction a as [|p k IH|n g t k IH]; intros w; simpl.
  - exists []. now rewrite app_nil_r.
  - destruct (IH {| comp := setState (comp w) p;
                    history := history w ++ [setState (comp w) p];
                    issued := issued w; tasks := tasks w |}) as [l Hl].
    rewrite Hl. simpl. rewrite <- app_assoc. now eexists.
  - exists []. now rewrite app_nil_r.
Qed.

Lemma step_history (w w' : World) (e : Event) :
  step w e = Some w' -> exists l, history w' = history w ++ l.
Proof.
  destruct e as [|i f o]; unfold step.
  - intros H. replace w' with (run fetchAll w) by congruence.
    apply run_history.
  - destruct (nth_error (tasks w) i) as [[t|]|]; try discriminate.
    destruct (got f t); [discriminate|]. cbv zeta.
    destruct (got_news (settle f (to_slot o) t)) as [n|],
             (got_gallery (settle f (to_slot o) t)) as [g|],
             (got_top (settle f (to_slot o) t)) as [tp|];
      intros H;
      try (injection H as <-; exists []; cbn [history]; now rewrite app_nil_r).
    match type of H with Some ?x = _ => replace w' with x by congruence end.
    apply (run_history _ {| comp := comp w; history := history w;
                            issued := issued w;
                            tasks := replace_nth i None (tasks w) |}).
Qed.

Lemma exec_history (evs : list Event) (w w' : World) :
  exec w evs = Some w' -> exists l, history w' = history w ++ l.
Proof.
  revert w. induction evs as [|e evs IH]; intros w; simpl.
  - intros [= <-]. exists []. now rewrite app_nil_r.
  - destruct (step w e) as [w1|] eqn:E; [|discriminate].
    intros H. apply IH in H as [l2 H2]. apply step_history in E as [l1 H1].
    exists (l1 ++ l2). now rewrite H2, H1, app_assoc.
Qed.









(** C3. A call of [fetchAll] is one state update: it adds one state to
    the history, in which the three slots are loading together and the
    rest is unchanged.  Its three requests are issued by that same
    step, none of them pending before it and none settled by it, and
    whatever happens later is appended after the loading state. *)
Theorem fetchAll_starts_with_one_loading_update (w : World) :
  let w' := run fetchAll w in
  let i := List.length (tasks w) in
  step w CallFetchAll = Some w' /\
  history w' = history w ++ [comp w'] /\
  comp w' = setState (comp w) loading_patch /\
  (forall f, slot f (comp w') = Loading) /\
  isIsomorphic (comp w') = isIsomorphic (comp w) /\
  issued w' = issued w ++ [news_form; gallery_form; top_form] /\
  (forall f o, step w (Settle i f o) = None) /\
  (exists t, nth_error (tasks w') i = Some (Some t) /\
             forall f, got f t = None) /\
  (forall evs w2, exec w' evs = Some w2 ->
     exists later, history w2 = history w ++ [comp w'] ++ later).
Proof.
  destruct w as [c h iss ts]. cbv zeta.
  cbn [run fetchAll comp history issued tasks].
  split; [reflexivity|]. split; [reflexivity|]. split; [reflexivity|].
  split; [intros []; reflexivity|]. split; [reflexivity|].
  split; [reflexivity|]. split; [|split].
  - intros f o. unfold step. cbn [tasks]. now rewrite nth_error_past.
  - eexists. split; [apply nth_error_last | intros []; reflexivity].
  - intros evs w2 Hex. apply exec_history in Hex as [later Hl].
    exists later. rewrite Hl. cbn [history]. now rewrite <- app_assoc.
Qed.

(** A call made on a hydrated component, whose three requests then
    settle one by one. *)
Lemma fetchAll_starts_with_one_loading_update_witness :
  exists w2,
    exec (run fetchAll (mount true good_snapshot true))
         [Settle 0 News (Ok sample_page);
          Settle 0 Gallery (Ok empty_page);
          Settle 0 TopLocal (Fault timeout_error)] = Some w2 /\
    exists later,
      history w2 =
        history (mount true good_snapshot true) ++
        [comp (run fetchAll (mount true good_snapshot true))] ++ later.
Proof.
  eexists. split; [reflexivity|].
  apply (proj2 (proj2 (proj2 (proj2 (proj2 (proj2 (proj2 (proj2
           (fetchAll_starts_with_one_loading_update
              (mount true good_snapshot true))))))))))
    with (evs := [Settle 0 News (Ok sample_page);
                  Settle 0 Gallery (Ok empty_page);
                  Settle 0 TopLocal (Fault timeout_error)]).
  reflexivity.
Defined.

(** C4, as stated, at [failed_snapshot]: the snapshot is supplied, the
    news slot starts as the failed request of the snapshot, not as a
    success, and no request is issued to replace it. *)
Lemma failed_snapshot_entry_is_kept :
  newsPosts (comp (mount true failed_snapshot true)) = Failed timeout_error /\
  (forall data,
     newsPosts (comp (mount true failed_snapshot true)) <> Success data) /\
  issued (mount true failed_snapshot true) = [].
Proof.
  split; [reflexivity|]. split; [intros data; discriminate | reflexivity].
Qed.

(** C4, as the code has it.  With a snapshot, construction copies the
    three entries of the snapshot into the slots as they are (a success
    stays the same success), marks the component isomorphic, and mount
    issues no request and updates no state; in particular three
    successes give three [Success] slots.  [fetchAll] runs at mount
    exactly when there is no snapshot and the code runs in a browser:
    the requests issued are then its three requests, and none
    otherwise. *)
Theorem mount_with_snapshot_skips_fetch :
  (forall rd isBrowser,
     let w := mount true rd isBrowser in
     newsPosts (comp w) = rd_newsPosts rd /\
     galleryPosts (comp w) = rd_galleryPosts rd /\
     localTopPosts (comp w) = rd_localTopPosts rd /\
     isIsomorphic (comp w) = true /\
     issued w = [] /\ tasks w = [] /\ history w = []) /\
  (forall n g t isBrowser,
     let w := mount true {| rd_newsPosts := Success n;
                            rd_galleryPosts := Success g;
                            rd_localTopPosts := Success t |} isBrowser in
     newsPosts (comp w) = Success n /\
     galleryPosts (comp w) = Success g /\
     localTopPosts (comp w) = Success t) /\
  (forall isFirstLoad rd isBrowser,
     componentWillMount (constructor isFirstLoad rd) isBrowser =
       if negb isFirstLoad && isBrowser then fetchAll else Return) /\
  (forall isFirstLoad rd isBrowser,
     issued (mount isFirstLoad rd isBrowser) =
       if negb isFirstLoad && isBrowser
       then [news_form; gallery_form; top_form] else []) /\
  (forall rd, issued (mount false rd false) = [] /\
              comp (mount false rd false) = initial_state) /\
  (forall rd, forall f, slot f (comp (mount false rd true)) = Loading).
Proof.
  repeat split.
  - now intros [] rd [].
  - now intros [] rd [].
  - intros rd []; reflexivity.
Qed.

(** The cloud of [two_label_posts]: the deleted tag and the blank tag
    are in no entry; the cloud of [unlabelled_posts] is empty. *)
Lemma buildTagCloud_excludes_deleted_and_empty_witness :
  (tc_name {| tc_name := JsString.lit "ocaml"; tc_size := minSize |} <> [] /\
   exists p t, In p two_label_posts /\ In t (tags p) /\
               deleted t = false /\
               tag_label t =
               tc_name {| tc_name := JsString.lit "ocaml";
                          tc_size := minSize |}) /\
  buildTagCloud unlabelled_posts = [].
Proof.
  split.
  - apply (proj1 (buildTagCloud_excludes_deleted_and_empty two_label_posts)).
    right. left. vm_compute. reflexivity.
  - apply (proj2 (proj2 (proj2 (proj2
             (buildTagCloud_excludes_deleted_and_empty unlabelled_posts))))).
    intros p t [<- | []] [<- | [<- | []]]; [left | right]; reflexivity.
Defined.

(* ================================================================= *)
(** * Further properties of the component *)

(* ================================================================= *)
(** ** Rendering of one news post *)

Section NewsPostFacts.

Variable isImage : jsstring -> bool.
Variable hostname : jsstring -> jsstring.

(** X1.  The host name link and the image are never shown together.  For a
    post without mini tag: when an image resolves, it is shown, linked
    to the url of the post in a new tab when the url is not empty, to
    the url as it stands when it is the empty string, and to the image
    itself when there is no url; when no image resolves, the host name
    link is shown exactly when the url is not empty.  The body is shown
    exactly when it is not empty. *)
Theorem news_post_shows_image_or_link (pv : PostView) :
  let v := renderNewsPost isImage hostname pv in
  (np_link v = None \/ np_image v = None) /\
  (hasMiniTag (tags pv) = false ->
   (forall i, getImageUrl isImage pv = Some i ->
      np_link v = None /\
      np_image v =
        Some {| img_href := match url (post pv) with Some u => u | None => i end;
                img_new_tab := JsString.truthy_opt (url (post pv));
                img_src := i;
                img_alt := alt_text (post pv);
                img_nsfw := nsfw (post pv) || community_nsfw (community pv) |}) /\
   (getImageUrl isImage pv = None ->
      np_image v = None /\
      np_link v =
        match url (post pv) with
        | Some u => if JsString.truthy u
                    then Some {| link_href := u; link_text := hostname u |}
                    else None
        | None => None
        end) /\
   np_body v =
     match body (post pv) with
     | Some b => if JsString.truthy b then Some b else None
     | None => None
     end).
Proof.
  cbv zeta. unfold renderNewsPost. cbn [np_link np_image np_body].
  destruct (hasMiniTag (tags pv)) eqn:Hmini; cbn [negb].
  - split; [|discriminate]. right. reflexivity.
  - destruct (getImageUrl isImage pv) as [i|] eqn:Hi.
    + pose proof (getImageUrl_truthy isImage pv i Hi) as Ht.
      cbn [JsString.truthy_opt]. rewrite Ht. cbn [negb].
      assert (Hl : match url (post pv) with
                   | Some u =>
                       if JsString.truthy u && true && false
                       then Some {| link_href := u; link_text := hostname u |}
                       else None
                   | None => None
                   end = None).
      { destruct (url (post pv)); [|reflexivity]. now rewrite andb_false_r. }
      rewrite Hl. split; [now left|]. intros _. split; [|split].
      * intros i' [= <-]. split; reflexivity.
      * discriminate.
      * destruct (body (post pv)); reflexivity.
    + cbn [JsString.truthy_opt negb]. split; [now right|]. intros _.
      split; [|split].
      * discriminate.
      * intros _. split; [reflexivity|].
        destruct (url (post pv)) as [u|]; [|reflexivity].
        now rewrite !andb_true_r.
      * destruct (body (post pv)); reflexivity.
Qed.

(** X2.  Whatever [getImageUrl] returns is not the empty string and is one
    of the three candidates: the link of the image details, or a url or
    thumbnail url that the image predicate accepts. *)
Theorem getImageUrl_returns_a_candidate (pv : PostView) (i : jsstring) :
  getImageUrl isImage pv = Some i ->
  i <> [] /\
  (details_link pv = Some i \/
   (url (post pv) = Some i /\ isImage i = true) \/
   (thumbnail_url (post pv) = Some i /\ isImage i = true)).
Proof.
  intros Hi. split.
  - apply truthy_nonempty. exact (getImageUrl_truthy isImage pv i Hi).
  - revert Hi. unfold getImageUrl.
    destruct (JsString.truthy_opt (details_link pv)); [now left|].
    destruct (accepted isImage (url (post pv))) eqn:Hu.
    + intros E. right. left. split; [exact E|].
      rewrite E in Hu. simpl in Hu. now apply andb_true_iff in Hu.
    + destruct (accepted isImage (thumbnail_url (post pv))) eqn:Ht;
        [|discriminate].
      intros E. right. right. split; [exact E|].
      rewrite E in Ht. simpl in Ht. now apply andb_true_iff in Ht.
Qed.

End NewsPostFacts.

Lemma news_post_shows_image_or_link_witness :
  np_link (renderNewsPost ends_in_png host_of (sample_view None [])) =
    Some {| link_href := JsString.lit "https://example.org/story";
            link_text := host_of (JsString.lit "https://example.org/story") |} /\
  np_image (renderNewsPost ends_in_png host_of (sample_view None [])) = None.
Proof.
  destruct (proj2 (news_post_shows_image_or_link ends_in_png host_of
                     (sample_view None [])) eq_refl) as (_ & Hnone & _).
  destruct (Hnone eq_refl) as [Himg Hlink].
  split; [exact Hlink | exact Himg].
Defined.

Lemma getImageUrl_returns_a_candidate_witness :
  JsString.lit "X" <> [] /\
  (details_link (sample_view (Some {| link := JsString.lit "X" |}) []) =
     Some (JsString.lit "X") \/
   (url (post (sample_view (Some {| link := JsString.lit "X" |}) [])) =
      Some (JsString.lit "X") /\ ends_in_png (JsString.lit "X") = true) \/
   (thumbnail_url (post (sample_view (Some {| link := JsString.lit "X" |}) [])) =
      Some (JsString.lit "X") /\ ends_in_png (JsString.lit "X") = true)).
Proof.
  apply (getImageUrl_returns_a_candidate ends_in_png
           (sample_view (Some {| link := JsString.lit "X" |}) [])).
  reflexivity.
Defined.

(* ================================================================= *)
(** ** Mini tags and the tag cloud *)

Lemma lower_unit_letter (c x : N) :
  JsString.lower_unit c = x -> (97 <= x <= 122)%N ->
  JsString.is_space c = false.
Proof.
  unfold JsString.lower_unit.
  destruct ((65 <=? c)%N && (c <=? 90)%N) eqn:E.
  - apply andb_true_iff in E as [E1 E2].
    apply N.leb_le in E1, E2. intros <- _.
    assert (Hc : In c [65; 66; 67; 68; 69; 70; 71; 72; 73; 74; 75; 76; 77;
                       78; 79; 80; 81; 82; 83; 84; 85; 86; 87; 88; 89; 90]%N).
    { assert (Hn : (N.to_nat c - 65 < 26)%nat) by lia.
      replace c with (N.of_nat (65 + (N.to_nat c - 65))) by lia.
      remember (N.to_nat c - 65)%nat as k. clear - Hn.
      do 26 (destruct k as [|k]; [simpl; tauto|]). lia. }
    simpl in Hc.
    repeat (destruct Hc as [<- | Hc]; [reflexivity|]). destruct Hc.
  - intros -> Hx.
    assert (Hc : In x [97; 98; 99; 100; 101; 102; 103; 104; 105; 106; 107;
                       108; 109; 110; 111; 112; 113; 114; 115; 116; 117;
                       118; 119; 120; 121; 122]%N).
    { assert (Hn : (N.to_nat x - 97 < 26)%nat) by lia.
      replace x with (N.of_nat (97 + (N.to_nat x - 97))) by lia.
      remember (N.to_nat x - 97)%nat as k. clear - Hn.
      do 26 (destruct k as [|k]; [simpl; tauto|]). lia. }
    simpl in Hc.
    repeat (destruct Hc as [<- | Hc]; [reflexivity|]). destruct Hc.
Qed.

(** A label that lower-cases to ["mini"] has no white space to trim. *)
Lemma mini_label_is_trimmed (s : jsstring) :
  JsString.toLowerCase s = JsString.lit "mini" -> JsString.trim s = s.
Proof.
  intros H.
  destruct s as [|a [|b [|c [|d [|e s]]]]]; try discriminate H.
  injection H as Ha _ _ Hd.
  assert (Sa : JsString.is_space a = false)
    by (apply (lower_unit_letter a _ Ha); lia).
  assert (Sd : JsString.is_space d = false)
    by (apply (lower_unit_letter d _ Hd); lia).
  unfold JsString.trim. cbn [JsString.trimStart]. rewrite Sa.
  cbn [rev app JsString.trimStart]. rewrite Sd. reflexivity.
Qed.

(** X3.  A tag whose label lower-cases to ["mini"] condenses its post whether
    or not the tag is deleted: [hasMiniTag] does not look at [deleted].
    When the tag is not deleted, the tag cloud counts it like any other
    tag, under its label as it is written. *)
Theorem mini_tag_condenses_and_is_counted
    (isImage : jsstring -> bool) (hostname : jsstring -> jsstring)
    (ps : list PostView) (p : PostView) (t : Tag) :
  In p ps -> In t (tags p) -> is_mini t = true ->
  hasMiniTag (tags p) = true /\
  np_image (renderNewsPost isImage hostname p) = None /\
  np_body (renderNewsPost isImage hostname p) = None /\
  (deleted t = false ->
   exists e, In e (buildTagCloud ps) /\
             tc_name e = raw_label t /\
             JsString.toLowerCase (tc_name e) = JsString.lit "mini") /\
  (deleted t = true ->
   count_tag (tag_counts ps) t = tag_counts ps).
Proof.
  intros Hp Ht Hmini.
  assert (Hhas : hasMiniTag (tags p) = true).
  { apply hasMiniTag_spec. now exists t. }
  split; [exact Hhas|].
  assert (Hrender : np_image (renderNewsPost isImage hostname p) = None /\
                    np_body (renderNewsPost isImage hostname p) = None).
  { unfold renderNewsPost. cbn [np_image np_body]. rewrite Hhas. cbn [negb].
    split; [reflexivity|]. now destruct (body (post p)). }
  destruct Hrender as [Hi Hb]. split; [exact Hi|]. split; [exact Hb|].
  apply is_mini_spec in Hmini.
  pose proof (mini_label_is_trimmed _ Hmini) as Htrim.
  split.
  - intros Hd.
    assert (Hq : qualifying t = true).
    { apply qualifying_spec. split; [exact Hd|]. unfold tag_label.
      rewrite Htrim. intros E. rewrite E in Hmini. discriminate. }
    assert (Hocc : (occurrences (tag_label t) (all_tags ps) <> 0)%Z).
    { apply occurrences_pos. exists t. split; [|split; [exact Hq | reflexivity]].
      apply in_all_tags. now exists p. }
    eexists. split.
    + apply (entry_of_count ps (tag_label t)
               (occurrences (tag_label t) (all_tags ps))).
      rewrite tag_counts_get.
      destruct (Z.eqb_spec (occurrences (tag_label t) (all_tags ps)) 0);
        [contradiction | reflexivity].
    + cbn [tc_name]. unfold tag_label. rewrite Htrim. split; [reflexivity|].
      exact Hmini.
  - intros Hd. apply count_tag_unqualified. unfold qualifying. now rewrite Hd.
Qed.

Lemma mini_tag_condenses_and_is_counted_witness :
  hasMiniTag (tags (sample_view None [mini_tag])) = true /\
  np_image (renderNewsPost ends_in_png host_of (sample_view None [mini_tag]))
    = None.
Proof.
  destruct (mini_tag_condenses_and_is_counted ends_in_png host_of
              [sample_view None [mini_tag]] (sample_view None [mini_tag])
              mini_tag (or_introl eq_refl) (or_introl eq_refl) eq_refl)
    as (H1 & H2 & _).
  split; [exact H1 | exact H2].
Defined.

(* ================================================================= *)
(** ** Tag cloud: order of the entries *)

Lemma eqb_sym (a b : jsstring) : JsString.eqb a b = JsString.eqb b a.
Proof.
  destruct (JsString.eqb a b) eqn:E; symmetry.
  - apply eqb_eq in E. subst. apply eqb_refl.
  - apply eqb_neq. apply eqb_neq in E. congruence.
Qed.

(** [set] keeps the keys in place and appends a new key at the end. *)
Lemma set_keys (m : CountMap.t) (k : jsstring) (v : Z) :
  map fst (CountMap.set m k v) = see (map fst m) k.
Proof.
  unfold see. induction m as [|[k0 v0] m IH]; simpl; [reflexivity|].
  rewrite (eqb_sym k k0).
  destruct (JsString.eqb k0 k) eqn:E; simpl.
  - apply eqb_eq in E. now subst.
  - rewrite IH. now destruct (existsb (JsString.eqb k) (map fst m)).
Qed.

Lemma fold_count_tag_keys (ts : list Tag) (m : CountMap.t) :
  map fst (fold_left count_tag ts m) =
  fold_left see (qualifying_labels ts) (map fst m).
Proof.
  revert m. induction ts as [|t ts IH]; intros m; [reflexivity|].
  simpl fold_left. rewrite IH. unfold qualifying_labels. simpl filter.
  destruct (qualifying t) eqn:Hq.
  - rewrite (count_tag_qualified _ _ Hq), set_keys. reflexivity.
  - rewrite (count_tag_unqualified _ _ Hq). reflexivity.
Qed.

(** The keys of the count map are the qualifying labels in the order in
    which the loops meet them first. *)
Lemma tag_counts_keys (ps : list PostView) :
  map fst (tag_counts ps) = first_seen (qualifying_labels (all_tags ps)).
Proof.
  unfold tag_counts, first_seen. now rewrite tag_counts_flat, fold_count_tag_keys.
Qed.

Lemma sort_insert_filter (c : Z) (x : jsstring * Z) (l : list (jsstring * Z)) :
  filter (fun e => (snd e =? c)%Z) (sort_insert x l) =
  filter (fun e => (snd e =? c)%Z) (x :: l).
Proof.
  induction l as [|y l IH]; [reflexivity|].
  cbn [sort_insert]. destruct (Z.ltb_spec (snd x) (snd y)) as [Hlt|]; [|reflexivity].
  cbn [filter] in *. rewrite IH.
  destruct (Z.eqb_spec (snd y) c), (Z.eqb_spec (snd x) c); try reflexivity.
  lia.
Qed.

Lemma sort_by_count_filter (c : Z) (l : list (jsstring * Z)) :
  filter (fun e => (snd e =? c)%Z) (sort_by_count l) =
  filter (fun e => (snd e =? c)%Z) l.
Proof.
  induction l as [|x l IH]; [reflexivity|].
  cbn [sort_by_count fold_right]. fold (sort_by_count l).
  rewrite sort_insert_filter. cbn [filter]. now rewrite IH.
Qed.

Lemma sort_insert_sorted (x : jsstring * Z) (l : list (jsstring * Z)) :
  StronglySorted by_count_desc l ->
  StronglySorted by_count_desc (sort_insert x l).
Proof.
  induction 1 as [|y l Hs IH Hall]; cbn [sort_insert].
  - constructor; constructor.
  - destruct (Z.ltb_spec (snd x) (snd y)) as [Hlt | Hge].
    + constructor; [exact IH|].
      apply (Permutation_Forall (Permutation_sym (sort_insert_perm x l))).
      constructor; [unfold by_count_desc; lia | exact Hall].
    + constructor; [now constructor|].
      constructor; [exact Hge|].
      apply (Forall_impl _ (P := by_count_desc y)); [|exact Hall].
      unfold by_count_desc. intros. lia.
Qed.

Lemma sort_by_count_sorted (l : list (jsstring * Z)) :
  StronglySorted by_count_desc (sort_by_count l).
Proof.
  induction l as [|x l IH]; [constructor|].
  cbn [sort_by_count fold_right]. fold (sort_by_count l).
  now apply sort_insert_sorted.
Qed.

Lemma tag_counts_values (ps : list PostView) :
  Forall (fun e => snd e = count_of ps (fst e)) (tag_counts ps).
Proof.
  apply Forall_forall. intros [k c] Hin. simpl.
  apply (in_get _ _ _ (tag_counts_nodup ps)) in Hin.
  now apply tag_counts_get_some in Hin.
Qed.

Lemma StronglySorted_map_fst (ps : list PostView) (l : list (jsstring * Z)) :
  Forall (fun e => snd e = count_of ps (fst e)) l ->
  StronglySorted by_count_desc l ->
  StronglySorted (fun k k' => (count_of ps k' <= count_of ps k)%Z) (map fst l).
Proof.
  intros Hv Hs. induction Hs as [|x l Hs IH Hall]; simpl; [constructor|].
  inversion Hv as [|? ? Hx Hl]; subst.
  constructor; [now apply IH|].
  apply Forall_forall. intros k Hk. apply in_map_iff in Hk as (e & <- & He).
  rewrite Forall_forall in Hall, Hl.
  specialize (Hall e He). specialize (Hl e He). unfold by_count_desc in Hall.
  rewrite <- Hx, <- Hl. exact Hall.
Qed.

Lemma filter_map_fst (ps : list PostView) (c : Z) (l : list (jsstring * Z)) :
  Forall (fun e => snd e = count_of ps (fst e)) l ->
  filter (fun k => (count_of ps k =? c)%Z) (map fst l) =
  map fst (filter (fun e => (snd e =? c)%Z) l).
Proof.
  induction 1 as [|x l Hx Hl IH]; [reflexivity|].
  simpl. rewrite <- Hx, IH. now destruct (snd x =? c)%Z.
Qed.

Lemma buildTagCloud_names (ps : list PostView) :
  map tc_name (buildTagCloud ps) = map fst (sort_by_count (tag_counts ps)).
Proof.
  rewrite buildTagCloud_entries, map_map. reflexivity.
Qed.

Lemma tag_cloud_order_sorted (ps : list PostView) :
  StronglySorted (fun k k' => (count_of ps k' <= count_of ps k)%Z)
                 (map tc_name (buildTagCloud ps)).
Proof.
  rewrite buildTagCloud_names.
  apply StronglySorted_map_fst; [|apply sort_by_count_sorted].
  apply (Permutation_Forall (Permutation_sym (sort_by_count_perm _))).
  apply tag_counts_values.
Qed.

(** X4.  The labels of the cloud are pairwise different (they serve as keys
    of the rendered badges) and are the qualifying labels, each once.
    They come by decreasing count, and labels of equal count keep the
    order in which the posts show them first. *)
Theorem tag_cloud_order (ps : list PostView) :
  let names := map tc_name (buildTagCloud ps) in
  let seen := first_seen (qualifying_labels (all_tags ps)) in
  NoDup names /\
  Permutation names seen /\
  StronglySorted (fun k k' => (count_of ps k' <= count_of ps k)%Z) names /\
  forall c, filter (fun k => (count_of ps k =? c)%Z) names =
            filter (fun k => (count_of ps k =? c)%Z) seen.
Proof.
  cbv zeta. rewrite buildTagCloud_names, <- tag_counts_keys.
  pose proof (sort_by_count_perm (tag_counts ps)) as Hperm.
  pose proof (tag_counts_values ps) as Hv.
  assert (Hv' : Forall (fun e => snd e = count_of ps (fst e))
                  (sort_by_count (tag_counts ps))).
  { apply (Permutation_Forall (Permutation_sym Hperm)). exact Hv. }
  split; [|split; [|split]].
  - apply (Permutation_NoDup (l := map fst (tag_counts ps))).
    + apply Permutation_map. now apply Permutation_sym.
    + apply tag_counts_nodup.
  - now apply Permutation_map.
  - apply StronglySorted_map_fst; [exact Hv' | apply sort_by_count_sorted].
  - intros c. rewrite (filter_map_fst ps c _ Hv'), (filter_map_fst ps c _ Hv).
    now rewrite sort_by_count_filter.
Qed.

(* ================================================================= *)
(** ** The sections of the page *)

(** X6.  The tag cloud is built from every post of the top-posts response,
    while the list beside it stops after the tenth: a qualifying tag of
    a post at index 10 or beyond is in the cloud although the post is
    not listed.  A response without qualifying tag gives the
    [none_found] notice. *)
Theorem tag_cloud_reads_unlisted_posts (s : NewsLandingState)
    (data : GetPostsResponse) :
  localTopPosts s = Success data ->
  (forall i p t,
     nth_error (posts data) i = Some p -> (10 <= i)%nat ->
     In t (tags p) -> qualifying t = true ->
     nth_error (section_items (renderLocalTopContent (localTopPosts s))) i
       = None /\
     exists items e, renderTagCloud s = FeedItems items /\
                     In e items /\ tc_name e = tag_label t) /\
  ((forall p t, In p (posts data) -> In t (tags p) -> qualifying t = false) ->
   renderTagCloud s = FeedNotice "none_found").
Proof.
  intros Hs. unfold renderTagCloud. rewrite Hs. split.
  - intros i p t Hnth Hi Ht Hq. split.
    + unfold renderLocalTopContent, slice0.
      destruct (firstn 10 (posts data)) as [|x l] eqn:E; cbn [section_items].
      * now destruct i.
      * rewrite nth_error_map, <- E, firstn_nth_error.
        destruct (Nat.ltb_spec i 10); [lia | reflexivity].
    + assert (Hocc : (occurrences (tag_label t) (all_tags (posts data)) <> 0)%Z).
      { apply occurrences_pos. exists t. split; [|split; [exact Hq | reflexivity]].
        apply in_all_tags. exists p. split; [|exact Ht].
        now apply nth_error_In in Hnth. }
      pose proof (entry_of_count (posts data) (tag_label t)
                    (occurrences (tag_label t) (all_tags (posts data)))) as He.
      rewrite tag_counts_get in He.
      destruct (Z.eqb_spec (occurrences (tag_label t) (all_tags (posts data))) 0);
        [contradiction|].
      specialize (He eq_refl). cbv zeta.
      destruct (buildTagCloud (posts data)) as [|e0 l] eqn:E; [destruct He|].
      eexists. eexists. split; [reflexivity|]. split; [exact He | reflexivity].
  - intros Hall. cbv zeta.
    assert (Hempty : tag_counts (posts data) = []).
    { apply get_all_none. intros k. rewrite tag_counts_get.
      destruct (Z.eqb_spec (occurrences k (all_tags (posts data))) 0) as [|Hne];
        [reflexivity|].
      apply occurrences_pos in Hne as (t & Hin & Hq & _).
      apply in_all_tags in Hin as (p & Hp & Ht).
      rewrite (Hall p t Hp Ht) in Hq. discriminate. }
    unfold buildTagCloud. now rewrite Hempty.
Qed.

(** X8.  In whichever section an error is shown, it carries the message of
    the failed slot as it is, and its retry is a call of [fetchAll]: it
    issues the three requests again and puts all four sections, the
    ones that had succeeded included, back to their spinner. *)
Theorem retry_refetches_every_feed
    (isImage : jsstring -> bool) (hostname : jsstring -> jsstring)
    (w : World) (e : ErrorView) :
  renderNewsPosts isImage hostname (comp w) = FeedError e \/
  renderGalleryContent isImage (comp w) = FeedError e \/
  renderTagCloud (comp w) = FeedError e \/
  renderLocalTopError (comp w) = Some e ->
  (exists f err, slot f (comp w) = Failed err /\ ev_message e = message err) /\
  step w CallFetchAll = Some (run (ev_retry e) w) /\
  issued (run (ev_retry e) w) =
    issued w ++ [news_form; gallery_form; top_form] /\
  renderNewsPosts isImage hostname (comp (run (ev_retry e) w)) = FeedSpinner /\
  renderGalleryContent isImage (comp (run (ev_retry e) w)) = FeedSpinner /\
  renderTagCloud (comp (run (ev_retry e) w)) = FeedSpinner /\
  renderLocalTopContent (localTopPosts (comp (run (ev_retry e) w))) = Spinner.
Proof.
  intros H.
  assert (He : exists f err, slot f (comp w) = Failed err /\
                             e = renderError err fetchAll).
  { unfold renderNewsPosts, renderGalleryContent, renderTagCloud,
      renderLocalTopError in H.
    destruct H as [H | [H | [H | H]]].
    - exists News. cbn [slot].
      destruct (newsPosts (comp w)) as [| |d|err]; try discriminate H.
      + destruct (posts d); discriminate H.
      + injection H as <-. now exists err.
    - exists Gallery. cbn [slot].
      destruct (galleryPosts (comp w)) as [| |d|err]; try discriminate H.
      + destruct (posts d); discriminate H.
      + injection H as <-. now exists err.
    - exists TopLocal. cbn [slot].
      destruct (localTopPosts (comp w)) as [| |d|err]; try discriminate H.
      + cbv zeta in H. destruct (buildTagCloud (posts d)); discriminate H.
      + injection H as <-. now exists err.
    - exists TopLocal. cbn [slot].
      destruct (localTopPosts (comp w)) as [| |d|err]; try discriminate H.
      injection H as <-. now exists err. }
  destruct He as (f & err & Hf & ->). split.
  - exists f, err. split; [exact Hf | reflexivity].
  - cbn [ev_retry renderError]. repeat split.
Qed.

(** The eleventh of [twelve_posts] is the only one tagged ["late"]: it
    has no row in the list, and ["late"] is in the cloud.  A response
    whose only tag is blank gives the notice. *)
Lemma tag_cloud_reads_unlisted_posts_witness :
  (nth_error (section_items
                (renderLocalTopContent (localTopPosts twelve_state))) 10
     = None /\
   exists items e, renderTagCloud twelve_state = FeedItems items /\
                   In e items /\
                   tc_name e = tag_label (plain_tag "late")) /\
  renderTagCloud
    {| newsPosts := Loading; galleryPosts := Loading;
       localTopPosts := Success {| posts := [sample_view None [blank_tag]] |};
       isIsomorphic := false |} = FeedNotice "none_found".
Proof.
  split.
  - apply (proj1 (tag_cloud_reads_unlisted_posts twelve_state twelve_page
                    eq_refl)
             10%nat (numbered_view 11) (plain_tag "late")).
    + reflexivity.
    + lia.
    + left. reflexivity.
    + reflexivity.
  - apply (proj2 (tag_cloud_reads_unlisted_posts
             {| newsPosts := Loading; galleryPosts := Loading;
                localTopPosts :=
                  Success {| posts := [sample_view None [blank_tag]] |};
                isIsomorphic := false |}
             {| posts := [sample_view None [blank_tag]] |} eq_refl)).
    intros p t [<- | []] [<- | []]. reflexivity.
Defined.

Lemma retry_refetches_every_feed_witness :
  renderGalleryContent ends_in_png
    (comp (run fetchAll (mount true failed_snapshot true))) = FeedSpinner.
Proof.
  apply (retry_refetches_every_feed ends_in_png host_of
           (mount true failed_snapshot true)
           (renderError timeout_error fetchAll)).
  left. reflexivity.
Defined.

(* ================================================================= *)
(** ** Server fetch, overlapping calls, reachable states *)

(** X10.  The client fetch and the server fetch agree: [fetchAll] issues the
    forms [fetchInitialData] uses, in the same order, and when its
    requests settle with what the server got for these forms, in any
    order, the slots end up as hydration from the server's route data
    sets them. *)
Theorem client_fetch_matches_hydration
    (getPosts : GetPosts -> Outcome) (rd : RouteData) (isBrowser : bool)
    (f1 f2 f3 : Feed) :
  settle_order f1 f2 f3 = true ->
  issued (mount false rd true) = map form_of [News; Gallery; TopLocal] /\
  exists w3,
    exec (mount false rd true)
         [Settle 0 f1 (getPosts (form_of f1));
          Settle 0 f2 (getPosts (form_of f2));
          Settle 0 f3 (getPosts (form_of f3))] = Some w3 /\
    forall f, slot f (comp w3) =
              slot f (comp (mount true (fetchInitialData getPosts) isBrowser)).
Proof.
  intros Hord. split; [reflexivity|].
  destruct f1, f2, f3; try discriminate Hord; clear Hord;
    (eexists; split; [reflexivity|]);
    intros []; destruct isBrowser; reflexivity.
Qed.

Lemma client_fetch_matches_hydration_witness :
  exists w3,
    exec (mount false good_snapshot true)
         [Settle 0 TopLocal (server_outcome top_form);
          Settle 0 News (server_outcome news_form);
          Settle 0 Gallery (server_outcome gallery_form)] = Some w3 /\
    forall f, slot f (comp w3) =
              slot f (comp (mount true
                              (fetchInitialData server_outcome) true)).
Proof.
  apply (proj2 (client_fetch_matches_hydration server_outcome good_snapshot
                  true TopLocal News Gallery eq_refl)).
Defined.

Lemma nth_error_at {A} (l r : list A) (x : A) :
  nth_error (l ++ x :: r) (List.length l) = Some x.
Proof. induction l as [|y l IH]; simpl; [reflexivity | exact IH]. Qed.

Lemma replace_nth_at {A} (l r : list A) (x y : A) :
  replace_nth (List.length l) y (l ++ x :: r) = l ++ y :: r.
Proof. induction l as [|z l IH]; simpl; [reflexivity | now rewrite IH]. Qed.

(** Settling a request of any suspended invocation. *)
Lemma step_settle_at (c : NewsLandingState) (h : list NewsLandingState)
    (iss : list GetPosts) (ts rest : list (option Task)) (t : Task)
    (f : Feed) (o : Outcome) :
  got f t = None ->
  step {| comp := c; history := h; issued := iss;
          tasks := ts ++ Some t :: rest |}
       (Settle (List.length ts) f o) =
  let t' := settle f (to_slot o) t in
  match got_news t', got_gallery t', got_top t' with
  | Some n, Some g, Some tp =>
      Some (run (cont t' n g tp)
              {| comp := c; history := h; issued := iss;
                 tasks := ts ++ None :: rest |})
  | _, _, _ =>
      Some {| comp := c; history := h; issued := iss;
              tasks := ts ++ Some t' :: rest |}
  end.
Proof.
  intros Hgot. unfold step. cbn [tasks comp history issued].
  rewrite nth_error_at, Hgot, !replace_nth_at. reflexivity.
Qed.

Ltac settle_at :=
  rewrite step_settle_at by reflexivity;
  cbn [settle got_news got_gallery got_top cont to_slot run setState
       comp history issued tasks result_patch
       set_newsPosts set_galleryPosts set_localTopPosts].

Lemma exec_app (w : World) (evs evs' : list Event) :
  exec w (evs ++ evs') =
  match exec w evs with
  | Some w' => exec w' evs'
  | None => None
  end.
Proof.
  revert w. induction evs as [|e evs IH]; intros w; simpl; [reflexivity|].
  destruct (step w e); [apply IH | reflexivity].
Qed.

(** X11.  Overlapping calls are not guarded: when a second call of [fetchAll]
    is made before the first has finished, and the requests of the
    second settle before those of the first, the slots first show the
    results of the second call and are then overwritten by the results
    of the first, older call. *)
Theorem older_call_overwrites_newer (w : World) (older newer : Feed -> Outcome) :
  let a := List.length (tasks w) in
  exists w1 w2,
    exec w [CallFetchAll; CallFetchAll;
            Settle (S a) News (newer News);
            Settle (S a) Gallery (newer Gallery);
            Settle (S a) TopLocal (newer TopLocal)] = Some w1 /\
    (forall f, slot f (comp w1) = to_slot (newer f)) /\
    exec w1 [Settle a News (older News);
             Settle a Gallery (older Gallery);
             Settle a TopLocal (older TopLocal)] = Some w2 /\
    (forall f, slot f (comp w2) = to_slot (older f)) /\
    issued w2 = issued w ++ [news_form; gallery_form; top_form]
                         ++ [news_form; gallery_form; top_form].
Proof.
  destruct w as [c h iss ts]. cbv zeta. cbn [tasks].
  set (tA := {| got_news := None; got_gallery := None; got_top := None;
                cont := fetchAll_cont |}).
  assert (Hcalls :
    exec {| comp := c; history := h; issued := iss; tasks := ts |}
         [CallFetchAll; CallFetchAll] =
    Some {| comp := setState (setState c loading_patch) loading_patch;
            history := (h ++ [setState c loading_patch])
                       ++ [setState (setState c loading_patch) loading_patch];
            issued := (iss ++ [news_form; gallery_form; top_form])
                      ++ [news_form; gallery_form; top_form];
            tasks := (ts ++ [Some tA]) ++ [Some tA] |}) by reflexivity.
  assert (Hlen : S (List.length ts) = List.length (ts ++ [Some tA]))
    by (rewrite length_app; simpl; lia).
  do 2 eexists.
  change [CallFetchAll; CallFetchAll;
          Settle (S (List.length ts)) News (newer News);
          Settle (S (List.length ts)) Gallery (newer Gallery);
          Settle (S (List.length ts)) TopLocal (newer TopLocal)]
    with ([CallFetchAll; CallFetchAll] ++
          [Settle (S (List.length ts)) News (newer News);
           Settle (S (List.length ts)) Gallery (newer Gallery);
           Settle (S (List.length ts)) TopLocal (newer TopLocal)]).
  rewrite exec_app, Hcalls, Hlen. clear Hcalls Hlen. subst tA.
  unfold fetchAll_cont.
  split.
  { cbn [exec]. settle_at. settle_at. settle_at. reflexivity. }
  split; [intros []; reflexivity|].
  rewrite <- (app_assoc ts). cbn [app].
  split.
  { cbn [exec]. settle_at. settle_at. settle_at. reflexivity. }
  split; [intros []; reflexivity|].
  cbn [issued]. now rewrite <- (app_assoc iss).
Qed.

Lemma replace_nth_length {A} (i : nat) (x : A) (l : list A) :
  List.length (replace_nth i x l) = List.length l.
Proof.
  revert i. induction l as [|y l IH]; intros [|i]; simpl; auto.
Qed.

Lemma Forall_replace_nth {A} (P : A -> Prop) (i : nat) (x : A) (l : list A) :
  P x -> Forall P l -> Forall P (replace_nth i x l).
Proof.
  intros Hx Hl. revert i. induction Hl as [|y l Hy Hl IH]; intros [|i]; simpl;
    constructor; auto.
Qed.

Lemma settle_task_ok (t : Task) (f : Feed) (o : Outcome) :
  task_ok (Some t) -> task_ok (Some (settle f (to_slot o) t)).
Proof.
  intros [Hc Hg]. split.
  - now destruct f.
  - intros f' v. destruct f, f'; cbn [settle got got_news got_gallery got_top];
      try (intros [= <-]; now exists o);
      first [apply (Hg News) | apply (Hg Gallery) | apply (Hg TopLocal)].
Qed.

Lemma setState_isIsomorphic (s : NewsLandingState) (p : Patch) :
  isIsomorphic (setState s p) = isIsomorphic s.
Proof. reflexivity. Qed.

Lemma world_ok_iso (s0 : NewsLandingState) (w : World) :
  world_ok s0 w -> isIsomorphic (comp w) = isIsomorphic s0.
Proof.
  intros (_ & Hh & _ & Hc). rewrite Hc.
  destruct (history w) as [|s h] eqn:E using rev_ind; [reflexivity|].
  rewrite last_last. apply Forall_app in Hh as [_ Hs].
  inversion Hs as [|? ? [_ Hiso] _]; subst. exact Hiso.
Qed.

(** Every step keeps the invariant, and only a call adds an invocation. *)
Lemma step_world_ok (s0 : NewsLandingState) (w w' : World) (e : Event) :
  world_ok s0 w -> step w e = Some w' ->
  world_ok s0 w' /\
  List.length (tasks w') =
    (List.length (tasks w) + if is_call e then 1 else 0)%nat.
Proof.
  intros Hok Hstep. pose proof (world_ok_iso s0 w Hok) as Hiso.
  destruct Hok as (Ht & Hh & Hi & Hc).
  destruct w as [c h iss ts]. cbn [comp history issued tasks] in *.
  destruct e as [|i f o].
  - cbn [step run fetchAll comp history issued tasks] in Hstep.
    injection Hstep as <-. cbn [is_call tasks]. split.
    + unfold world_ok. cbn [comp history issued tasks].
      split; [|split; [|split]].
      * apply Forall_app. split; [exact Ht|]. constructor; [|constructor].
        split; [reflexivity | intros []; discriminate].
      * apply Forall_app. split; [exact Hh|]. constructor; [|constructor].
        split; [left; intros []; reflexivity | exact Hiso].
      * rewrite length_app, Nat.add_1_r. cbn [List.length issued_by].
        now rewrite Hi.
      * now rewrite last_last.
    + now rewrite length_app.
  - unfold step in Hstep. cbn [tasks comp history issued] in Hstep.
    destruct (nth_error ts i) as [[t|]|] eqn:Hnth; try discriminate Hstep.
    destruct (got f t) eqn:Hgot; [discriminate Hstep|]. cbv zeta in Hstep.
    assert (Htok : task_ok (Some t)).
    { rewrite Forall_forall in Ht. apply Ht. now apply nth_error_In in Hnth. }
    pose proof (settle_task_ok t f o Htok) as [Hcont Hgots].
    cbn [is_call]. rewrite Nat.add_0_r.
    destruct (got_news (settle f (to_slot o) t)) as [n|] eqn:En;
      [destruct (got_gallery (settle f (to_slot o) t)) as [g|] eqn:Eg;
       [destruct (got_top (settle f (to_slot o) t)) as [tp|] eqn:Et|]|].
    + rewrite Hcont in Hstep.
      cbn [fetchAll_cont run comp history issued tasks] in Hstep.
      injection Hstep as <-. cbn [tasks]. split; [|apply replace_nth_length].
      unfold world_ok. cbn [comp history issued tasks].
      split; [|split; [|split]].
      * apply Forall_replace_nth; [exact I | exact Ht].
      * apply Forall_app. split; [exact Hh|]. constructor; [|constructor].
        split; [|exact Hiso]. right. intros [].
        -- apply (Hgots News). exact En.
        -- apply (Hgots Gallery). exact Eg.
        -- apply (Hgots TopLocal). exact Et.
      * now rewrite replace_nth_length.
      * now rewrite last_last.
    + injection Hstep as <-. cbn [tasks]. split; [|apply replace_nth_length].
      unfold world_ok. cbn [comp history issued tasks].
      split; [|split; [|split]]; auto.
      * apply Forall_replace_nth; [split; assumption | exact Ht].
      * now rewrite replace_nth_length.
    + injection Hstep as <-. cbn [tasks]. split; [|apply replace_nth_length].
      unfold world_ok. cbn [comp history issued tasks].
      split; [|split; [|split]]; auto.
      * apply Forall_replace_nth; [split; assumption | exact Ht].
      * now rewrite replace_nth_length.
    + injection Hstep as <-. cbn [tasks]. split; [|apply replace_nth_length].
      unfold world_ok. cbn [comp history issued tasks].
      split; [|split; [|split]]; auto.
      * apply Forall_replace_nth; [split; assumption | exact Ht].
      * now rewrite replace_nth_length.
Qed.

Lemma exec_world_ok (s0 : NewsLandingState) (evs : list Event) (w w' : World) :
  world_ok s0 w -> exec w evs = Some w' ->
  world_ok s0 w' /\
  List.length (tasks w') = (List.length (tasks w) + count_calls evs)%nat.
Proof.
  revert w. induction evs as [|e evs IH]; intros w Hok; cbn [exec].
  - intros [= <-]. split; [exact Hok|]. unfold count_calls. simpl. lia.
  - destruct (step w e) as [w1|] eqn:E; [|discriminate].
    intros Hex. destruct (step_world_ok s0 w w1 e Hok E) as [Hok1 Hlen1].
    destruct (IH w1 Hok1 Hex) as [Hok' Hlen']. split; [exact Hok'|].
    rewrite Hlen', Hlen1. unfold count_calls. cbn [filter].
    destruct (is_call e); simpl; lia.
Qed.

Lemma mount_world_ok (isFirstLoad : bool) (rd : RouteData) (isBrowser : bool) :
  world_ok (constructor isFirstLoad rd) (mount isFirstLoad rd isBrowser) /\
  List.length (tasks (mount isFirstLoad rd isBrowser)) =
    if negb isFirstLoad && isBrowser then 1%nat else 0%nat.
Proof.
  assert (Hidle : forall s0,
            world_ok s0 {| comp := s0; history := []; issued := [];
                           tasks := [] |}).
  { intros s0. unfold world_ok. cbn [comp history issued tasks].
    split; [constructor|]. split; [constructor|]. split; reflexivity. }
  destruct isFirstLoad, isBrowser; (split; [|reflexivity]);
    try apply Hidle.
  unfold world_ok, mount.
  cbn [constructor componentWillMount initial_state isIsomorphic negb andb
       run fetchAll comp history issued tasks].
  split; [|split; [|split]].
  - constructor; [|constructor].
    split; [reflexivity | intros []; discriminate].
  - constructor; [|constructor].
    split; [left; intros []; reflexivity | reflexivity].
  - reflexivity.
  - reflexivity.
Qed.

(** X12.  Whatever happens after mount, every state the component is put in
    has its three slots loading together or settled together, never a
    mix; the current state is the last one set (or the constructed one);
    [isIsomorphic] keeps the value the constructor gave it; and requests
    are only ever issued as whole triples (news, gallery, top), one per
    call of [fetchAll]. *)
Theorem reachable_states (isFirstLoad : bool) (rd : RouteData)
    (isBrowser : bool) (evs : list Event) (w : World) :
  exec (mount isFirstLoad rd isBrowser) evs = Some w ->
  (forall s, In s (history w) -> all_loading s \/ all_settled s) /\
  comp w = last (history w) (constructor isFirstLoad rd) /\
  isIsomorphic (comp w) = isFirstLoad /\
  issued w = issued_by (List.length (tasks w)) /\
  List.length (tasks w) =
    (count_calls evs + if negb isFirstLoad && isBrowser then 1 else 0)%nat.
Proof.
  intros Hex.
  destruct (mount_world_ok isFirstLoad rd isBrowser) as [Hok0 Hlen0].
  destruct (exec_world_ok _ evs _ w Hok0 Hex) as [Hok Hlen].
  pose proof (world_ok_iso _ _ Hok) as Hiso.
  destruct Hok as (_ & Hh & Hi & Hc).
  split; [|split; [|split; [|split]]].
  - intros s Hs. rewrite Forall_forall in Hh. now destruct (Hh s Hs).
  - exact Hc.
  - rewrite Hiso. now destruct isFirstLoad.
  - exact Hi.
  - rewrite Hlen, Hlen0. lia.
Qed.

Lemma reachable_states_witness :
  exists w,
    exec (mount false good_snapshot true)
         [Settle 0 News (Ok sample_page); CallFetchAll;
          Settle 1 Gallery (Fault timeout_error)] = Some w /\
    issued w = issued_by (List.length (tasks w)) /\
    List.length (tasks w) = 2%nat.
Proof.
  eexists. split; [reflexivity|].
  destruct (reachable_states false good_snapshot true
              [Settle 0 News (Ok sample_page); CallFetchAll;
               Settle 1 Gallery (Fault timeout_error)] _ eq_refl)
    as (_ & _ & _ & Hi & Hl).
  split; [exact Hi | exact Hl].
Defined.

(* ================================================================= *)
(** ** Community shortcuts *)

Lemma lower_upper_unit (c : N) :
  JsString.lower_unit (upper_unit c) = JsString.lower_unit c.
Proof.
  unfold JsString.lower_unit, upper_unit.
  destruct (N.leb_spec 97 c), (N.leb_spec c 122); cbn [andb];
    destruct (N.leb_spec 65 c), (N.leb_spec c 90); cbn [andb];
    try lia; try reflexivity;
    destruct (N.leb_spec 65 (c - 32)), (N.leb_spec (c - 32) 90); cbn [andb];
    lia.
Qed.

Lemma upper_unit_idem (c : N) : upper_unit (upper_unit c) = upper_unit c.
Proof.
  unfold upper_unit.
  destruct (N.leb_spec 97 c), (N.leb_spec c 122); cbn [andb];
    try reflexivity;
    try (destruct (N.leb_spec 97 c), (N.leb_spec c 122); cbn [andb];
         try lia; reflexivity).
  destruct (N.leb_spec 97 (c - 32)), (N.leb_spec (c - 32) 122); cbn [andb];
    try reflexivity; lia.
Qed.

(** X13.  [formatShortcut] on an ASCII string: the empty string stays empty;
    otherwise the first code unit is upper-cased and the rest is kept,
    so the length is kept, a second application changes nothing, and
    lower-casing the result is lower-casing the string.  The shortcut
    links have pairwise different keys, each leads to [/c/] followed by
    its shortcut, and the label lower-cases to the shortcut. *)
Theorem formatShortcut_capitalises (s : jsstring) :
  ascii_string s ->
  formatShortcut s =
    match s with [] => [] | c :: r => upper_unit c :: r end /\
  List.length (formatShortcut s) = List.length s /\
  formatShortcut (formatShortcut s) = formatShortcut s /\
  JsString.toLowerCase (formatShortcut s) = JsString.toLowerCase s /\
  NoDup (map sl_key renderCommunityShortcuts) /\
  forall l, In l renderCommunityShortcuts ->
    In (sl_key l) COMMUNITY_SHORTCUTS /\
    sl_to l = JsString.lit "/c/" ++ sl_key l /\
    sl_text l = formatShortcut (sl_key l) /\
    JsString.toLowerCase (sl_text l) = sl_key l.
Proof.
  intros _.
  assert (E : formatShortcut s =
              match s with [] => [] | c :: r => upper_unit c :: r end)
    by (destruct s; reflexivity).
  split; [exact E|]. split; [|split; [|split; [|split]]].
  - rewrite E. now destruct s.
  - destruct s as [|c r]; [reflexivity|].
    unfold formatShortcut at 1. rewrite E.
    cbn [charAt nth_error toUpperCase map slice_from skipn app].
    now rewrite upper_unit_idem.
  - rewrite E. destruct s as [|c r]; [reflexivity|].
    cbn [JsString.toLowerCase map]. now rewrite lower_upper_unit.
  - unfold renderCommunityShortcuts. rewrite map_map. cbn [sl_key map].
    unfold COMMUNITY_SHORTCUTS.
    repeat (constructor;
            [cbn [In]; intros Hin;
             repeat (destruct Hin as [Hin | Hin]; [discriminate Hin|]);
             exact Hin|]).
    constructor.
  - intros l Hl. unfold renderCommunityShortcuts in Hl.
    apply in_map_iff in Hl as (k & <- & Hk). cbn [sl_key sl_to sl_text].
    split; [exact Hk|]. split; [reflexivity|]. split; [reflexivity|].
    unfold COMMUNITY_SHORTCUTS in Hk. cbn [In] in Hk.
    repeat (destruct Hk as [<- | Hk]; [reflexivity|]). destruct Hk.
Qed.

Lemma formatShortcut_capitalises_witness :
  formatShortcut (JsString.lit "news") = JsString.lit "News".
Proof.
  rewrite (proj1 (formatShortcut_capitalises (JsString.lit "news")
                    ltac:(repeat constructor))).
  reflexivity.
Defined.

(* ================================================================= *)
(** ** Binary64 rounding is monotone *)

Section Binary64Monotone.

Import Binary64 Binary64Facts.
Local Open Scope Q_scope.

Lemma pow2_pos (e : Z) : 0 < pow2 e.
Proof. apply Qpower_0_lt. reflexivity. Qed.

Lemma pow2_plus (a b : Z) : pow2 (a + b) == pow2 a * pow2 b.
Proof. apply Qpower_plus. discriminate. Qed.

Lemma pow2_opp (a : Z) : pow2 (- a) == / pow2 a.
Proof. apply Qpower_opp. Qed.

Lemma pow2_mono (a b : Z) : (a <= b)%Z -> pow2 a <= pow2 b.
Proof. intros H. apply Qpower_le_compat_l; [exact H | discriminate]. Qed.

Lemma pow2_inject (k : Z) : (0 <= k)%Z -> inject_Z (2 ^ k) == pow2 k.
Proof. intros H. apply (Zpower_Qpower 2 k H). Qed.

Lemma shl_inject (x e : Z) :
  inject_Z (shl x e) == inject_Z x * pow2 (Z.max e 0).
Proof.
  unfold shl. rewrite inject_Z_mult, pow2_inject by lia. reflexivity.
Qed.

Lemma pow2_split (e : Z) : pow2 e == pow2 (Z.max e 0) / pow2 (Z.max (- e) 0).
Proof.
  destruct (Z_le_gt_dec 0 e).
  - rewrite (Z.max_l e 0), (Z.max_r (- e) 0) by lia.
    change (pow2 0) with 1. field.
  - rewrite (Z.max_r e 0), (Z.max_l (- e) 0) by lia.
    change (pow2 0) with 1. rewrite pow2_opp. field.
    pose proof (pow2_pos e). lra.
Qed.

Lemma shl_pos (x e : Z) : (0 < x)%Z -> (0 < shl x e)%Z.
Proof.
  intros H. unfold shl. apply Z.mul_pos_pos; [exact H|].
  apply Z.pow_pos_nonneg; lia.
Qed.

(** Scaling numerator and denominator divides the quotient by [2^e]. *)
Lemma scaled_quotient (n d e : Z) :
  (0 < d)%Z ->
  inject_Z (shl n (- e)) * inject_Z d * pow2 e ==
  inject_Z n * inject_Z (shl d e).
Proof.
  intros Hd. rewrite !shl_inject, (pow2_split e).
  pose proof (pow2_pos (Z.max (- e) 0)). field. lra.
Qed.

Lemma log2_bounds_Q (n : Z) :
  (0 < n)%Z ->
  pow2 (Z.log2 n) <= inject_Z n /\ inject_Z n < pow2 (Z.log2 n + 1).
Proof.
  intros Hn. pose proof (Z.log2_spec n Hn) as [H1 H2].
  pose proof (Z.log2_nonneg n) as H0.
  rewrite <- !pow2_inject by lia. rewrite <- Zle_Qle, <- Zlt_Qlt.
  split; [exact H1|]. now rewrite <- Z.add_1_r in H2.
Qed.

(** The test of [ilog2] compares the quotient with [2^l]. *)
Lemma ilog2_test (n d l : Z) :
  (0 < n)%Z -> (0 < d)%Z ->
  if (shl n (- l) <? shl d l)%Z
  then inject_Z n < pow2 l * inject_Z d
  else pow2 l * inject_Z d <= inject_Z n.
Proof.
  intros Hn Hd.
  pose proof (scaled_quotient n d l Hd) as E.
  pose proof (pow2_pos l) as Hp.
  assert (HD : 0 < inject_Z (shl d l)).
  { change 0 with (inject_Z 0). rewrite <- Zlt_Qlt. now apply shl_pos. }
  assert (Hd' : 0 < inject_Z d).
  { change 0 with (inject_Z 0). now rewrite <- Zlt_Qlt. }
  destruct (Z.ltb_spec (shl n (- l)) (shl d l)) as [Hlt | Hge].
  - rewrite Zlt_Qlt in Hlt.
    set (N := inject_Z (shl n (- l))) in *. set (D := inject_Z (shl d l)) in *.
    set (n' := inject_Z n) in *. set (d' := inject_Z d) in *.
    set (p := pow2 l) in *.
    apply (Qmult_lt_r _ _ D HD). rewrite <- E.
    assert (0 < d' * p) by nra. nra.
  - rewrite Zle_Qle in Hge.
    set (N := inject_Z (shl n (- l))) in *. set (D := inject_Z (shl d l)) in *.
    set (n' := inject_Z n) in *. set (d' := inject_Z d) in *.
    set (p := pow2 l) in *.
    apply (Qmult_le_r _ _ D HD). rewrite <- E.
    assert (0 < d' * p) by nra. nra.
Qed.

(** [ilog2 n d] is the integer part of the binary logarithm of [n / d]. *)
Lemma ilog2_spec (n d : Z) :
  (0 < n)%Z -> (0 < d)%Z ->
  pow2 (ilog2 n d) * inject_Z d <= inject_Z n /\
  inject_Z n < pow2 (ilog2 n d + 1) * inject_Z d.
Proof.
  intros Hn Hd. unfold ilog2.
  pose proof (log2_bounds_Q n Hn) as [Hn1 Hn2].
  pose proof (log2_bounds_Q d Hd) as [Hd1 Hd2].
  set (a := Z.log2 n) in *. set (b := Z.log2 d) in *.
  pose proof (ilog2_test n d (a - b) Hn Hd) as Ht.
  assert (Hd' : 0 < inject_Z d).
  { change 0 with (inject_Z 0). now rewrite <- Zlt_Qlt. }
  destruct (shl n (- (a - b)) <? shl d (a - b))%Z.
  - split.
    + assert (E : pow2 a == pow2 (a - b - 1) * pow2 (b + 1)).
      { rewrite <- pow2_plus. f_equiv. lia. }
      pose proof (pow2_pos (a - b - 1)).
      apply Qle_trans with (pow2 (a - b - 1) * pow2 (b + 1)).
      * apply Qmult_le_l; [assumption | lra].
      * rewrite <- E. exact Hn1.
    + replace (a - b - 1 + 1)%Z with (a - b)%Z by lia. exact Ht.
  - split; [exact Ht|].
    assert (E : pow2 (a + 1) == pow2 (a - b + 1) * pow2 b).
    { rewrite <- pow2_plus. f_equiv. lia. }
    pose proof (pow2_pos (a - b + 1)).
    apply Qlt_le_trans with (pow2 (a - b + 1) * pow2 b).
    + rewrite <- E. exact Hn2.
    + apply Qmult_le_l; assumption.
Qed.

(** Hence [ilog2] grows with the quotient. *)
Lemma ilog2_mono (n1 d1 n2 d2 : Z) :
  (0 < n1)%Z -> (0 < d1)%Z -> (0 < n2)%Z -> (0 < d2)%Z ->
  (n1 * d2 <= n2 * d1)%Z ->
  (ilog2 n1 d1 <= ilog2 n2 d2)%Z.
Proof.
  intros Hn1 Hd1 Hn2 Hd2 Hle.
  destruct (ilog2_spec n1 d1 Hn1 Hd1) as [Hlo1 _].
  destruct (ilog2_spec n2 d2 Hn2 Hd2) as [_ Hhi2].
  destruct (Z_le_gt_dec (ilog2 n1 d1) (ilog2 n2 d2)) as [|Hgt]; [assumption|].
  exfalso.
  pose proof (pow2_mono (ilog2 n2 d2 + 1) (ilog2 n1 d1) ltac:(lia)) as Hp.
  rewrite Zle_Qle, !inject_Z_mult in Hle.
  assert (0 < inject_Z d1) by (change 0 with (inject_Z 0); now rewrite <- Zlt_Qlt).
  assert (0 < inject_Z d2) by (change 0 with (inject_Z 0); now rewrite <- Zlt_Qlt).
  pose proof (pow2_pos (ilog2 n2 d2 + 1)).
  set (p1 := pow2 (ilog2 n1 d1)) in *. set (p2 := pow2 (ilog2 n2 d2 + 1)) in *.
  set (N1 := inject_Z n1) in *. set (N2 := inject_Z n2) in *.
  set (D1 := inject_Z d1) in *. set (D2 := inject_Z d2) in *.
  (* p1 D1 <= N1, N2 < p2 D2, p2 <= p1, N1 D2 <= N2 D1 *)
  assert (p1 * D1 * D2 <= N1 * D2) by nra.
  assert (N2 * D1 < p2 * D2 * D1) by nra.
  assert (HDD : 0 <= D1 * D2) by (apply Qmult_le_0_compat; lra).
  assert (0 <= (p1 - p2) * (D1 * D2)) by (apply Qmult_le_0_compat; lra).
  lra.
Qed.

Local Open Scope Z_scope.

Lemma round_half_even_tie (N D : Z) :
  0 < D -> 0 <= N ->
  2 * (round_half_even N D * D - N) = D \/
  2 * (N - round_half_even N D * D) = D ->
  Z.even (round_half_even N D) = true.
Proof.
  intros HD HN. unfold round_half_even.
  pose proof (Z.div_mod N D ltac:(lia)) as Hdm.
  pose proof (Z.mod_pos_bound N D HD) as Hr.
  destruct (Z.ltb_spec (2 * (N mod D)) D);
    [|destruct (Z.ltb_spec D (2 * (N mod D)));
      [|destruct (Z.even (N / D)) eqn:Ev]].
  - intros [H1 | H1]; nia.
  - intros [H1 | H1]; nia.
  - intros _. exact Ev.
  - intros _. rewrite Z.add_1_r, Z.even_succ, <- Z.negb_even, Ev. reflexivity.
Qed.

Lemma round_half_even_mono (N1 D1 N2 D2 : Z) :
  0 < D1 -> 0 < D2 -> 0 <= N1 -> 0 <= N2 ->
  N1 * D2 <= N2 * D1 ->
  round_half_even N1 D1 <= round_half_even N2 D2.
Proof.
  intros HD1 HD2 HN1 HN2 Hle.
  destruct (round_half_even_bounds N1 D1 HD1 HN1) as (_ & Hup1 & _).
  destruct (round_half_even_bounds N2 D2 HD2 HN2) as (_ & _ & Hdn2).
  pose proof (round_half_even_tie N1 D1 HD1 HN1) as Ht1.
  pose proof (round_half_even_tie N2 D2 HD2 HN2) as Ht2.
  set (m1 := round_half_even N1 D1) in *.
  set (m2 := round_half_even N2 D2) in *.
  destruct (Z_le_gt_dec m1 m2) as [|Hgt]; [assumption|]. exfalso.
  assert (HDD : 0 < D1 * D2) by nia.
  assert (H1 : (2 * m1 - 1) * (D1 * D2) <= 2 * (N1 * D2)) by nia.
  assert (H2 : 2 * (N2 * D1) <= (2 * m2 + 1) * (D1 * D2)) by nia.
  assert (H3 : (2 * m2 + 1) * (D1 * D2) <= (2 * m1 - 1) * (D1 * D2)) by nia.
  assert (Em : m1 = m2 + 1) by nia.
  assert (E1 : 2 * (m1 * D1 - N1) = D1) by nia.
  assert (E2 : 2 * (N2 - m2 * D2) = D2) by nia.
  specialize (Ht1 (or_introl E1)). specialize (Ht2 (or_intror E2)).
  rewrite Em, Z.add_1_r, Z.even_succ, <- Z.negb_even, Ht2 in Ht1.
  discriminate.
Qed.

Lemma round_half_even_ge (N D K : Z) :
  0 < D -> 0 <= N -> K * D <= N -> K <= round_half_even N D.
Proof.
  intros HD HN HK.
  destruct (round_half_even_bounds N D HD HN) as (_ & _ & Hdn). nia.
Qed.

Lemma round_half_even_le (N D K : Z) :
  0 < D -> 0 <= N -> N <= K * D -> round_half_even N D <= K.
Proof.
  intros HD HN HK.
  destruct (round_half_even_bounds N D HD HN) as (_ & Hup & _). nia.
Qed.

Local Open Scope Q_scope.

(** The float a positive rational rounds to, as mantissa and exponent. *)
Lemma rnd_value (q : Q) (n : Z) (d : positive) :
  Qred q = n # d -> (0 < n)%Z ->
  rnd q ==
  inject_Z (round_half_even (shl n (- ulp_exp n (Zpos d)))
                            (shl (Zpos d) (ulp_exp n (Zpos d))))
  * pow2 (ulp_exp n (Zpos d)).
Proof.
  intros Hred Hn. unfold rnd. rewrite Hred. cbn [Qnum Qden].
  destruct (Z.eqb_spec n 0) as [|_]; [lia|].
  rewrite (Z.abs_eq n), (Z.sgn_pos n), Z.mul_1_l by lia.
  set (e := ulp_exp n (Z.pos d)).
  set (m := round_half_even (shl n (- e)) (shl (Z.pos d) e)).
  rewrite Qred_correct, Qmake_Qdiv.
  rewrite Z2Pos.id by (apply shl_pos; lia).
  rewrite !shl_inject, (pow2_split e).
  pose proof (pow2_pos (Z.max (- e) 0)). field. lra.
Qed.

Lemma inject_Z_pos (z : Z) : (0 < z)%Z -> 0 < inject_Z z.
Proof. intros H. change 0 with (inject_Z 0). now rewrite <- Zlt_Qlt. Qed.

Lemma scaled_le (n d e : Z) (K : Q) :
  (0 < d)%Z ->
  inject_Z n <= K * pow2 e * inject_Z d ->
  inject_Z (shl n (- e)) <= K * inject_Z (shl d e).
Proof.
  intros Hd H.
  pose proof (scaled_quotient n d e Hd) as E.
  pose proof (pow2_pos e) as Hp.
  pose proof (inject_Z_pos d Hd) as Hd'.
  pose proof (inject_Z_pos _ (shl_pos d e Hd)) as HD.
  assert (Hdp : 0 < inject_Z d * pow2 e) by (apply Qmult_lt_0_compat; assumption).
  apply (Qmult_le_r _ _ _ Hdp).
  rewrite Qmult_assoc, E.
  setoid_replace (K * inject_Z (shl d e) * (inject_Z d * pow2 e))
    with ((K * pow2 e * inject_Z d) * inject_Z (shl d e)) by ring.
  apply Qmult_le_compat_r; [exact H | lra].
Qed.

Lemma scaled_ge (n d e : Z) (K : Q) :
  (0 < d)%Z ->
  K * pow2 e * inject_Z d <= inject_Z n ->
  K * inject_Z (shl d e) <= inject_Z (shl n (- e)).
Proof.
  intros Hd H.
  pose proof (scaled_quotient n d e Hd) as E.
  pose proof (pow2_pos e) as Hp.
  pose proof (inject_Z_pos d Hd) as Hd'.
  pose proof (inject_Z_pos _ (shl_pos d e Hd)) as HD.
  assert (Hdp : 0 < inject_Z d * pow2 e) by (apply Qmult_lt_0_compat; assumption).
  apply (Qmult_le_r _ _ _ Hdp).
  rewrite (Qmult_assoc (inject_Z (shl n (- e)))), E.
  setoid_replace (K * inject_Z (shl d e) * (inject_Z d * pow2 e))
    with ((K * pow2 e * inject_Z d) * inject_Z (shl d e)) by ring.
  apply Qmult_le_compat_r; [exact H | lra].
Qed.

Lemma rnd_nonneg (q : Q) : 0 <= q -> 0 <= rnd q.
Proof.
  intros H0. pose proof (Qred_correct q) as Hred.
  destruct (Qred q) as [n d] eqn:Eq.
  assert (Hn : (0 <= n)%Z).
  { rewrite <- Hred in H0. unfold Qle in H0. simpl in H0. lia. }
  destruct (Z.eq_dec n 0) as [-> | Hnz].
  - unfold rnd. rewrite Eq. simpl. lra.
  - rewrite (rnd_value q n d Eq ltac:(lia)).
    apply Qmult_le_0_compat.
    + change 0 with (inject_Z 0). rewrite <- Zle_Qle.
      apply round_half_even_bounds.
      * apply shl_pos. lia.
      * unfold shl. apply Z.mul_nonneg_nonneg; [lia|].
        apply Z.pow_nonneg. lia.
    + pose proof (pow2_pos (ulp_exp n (Z.pos d))). lra.
Qed.

(** Rounding to binary64 is monotone. *)
Lemma rnd_mono (x y : Q) : 0 <= x -> x <= y -> rnd x <= rnd y.
Proof.
  intros Hx Hxy.
  pose proof (Qred_correct x) as Hrx. pose proof (Qred_correct y) as Hry.
  destruct (Qred x) as [n1 d1] eqn:E1. destruct (Qred y) as [n2 d2] eqn:E2.
  assert (Hn1 : (0 <= n1)%Z).
  { rewrite <- Hrx in Hx. unfold Qle in Hx. simpl in Hx. lia. }
  destruct (Z.eq_dec n1 0) as [-> | Hnz].
  { assert (rnd x = 0) as -> by (unfold rnd; rewrite E1; reflexivity).
    apply rnd_nonneg. lra. }
  assert (Hp1 : (0 < n1)%Z) by lia.
  assert (Hcross : (n1 * Z.pos d2 <= n2 * Z.pos d1)%Z).
  { rewrite <- Hrx, <- Hry in Hxy. exact Hxy. }
  assert (Hp2 : (0 < n2)%Z) by nia.
  rewrite (rnd_value x n1 d1 E1 Hp1), (rnd_value y n2 d2 E2 Hp2).
  pose proof (ilog2_mono n1 (Z.pos d1) n2 (Z.pos d2) Hp1 ltac:(lia) Hp2
                ltac:(lia) Hcross) as HL.
  destruct (ilog2_spec n1 (Z.pos d1) Hp1 ltac:(lia)) as [_ Hhi1].
  destruct (ilog2_spec n2 (Z.pos d2) Hp2 ltac:(lia)) as [Hlo2 _].
  unfold ulp_exp.
  set (L1 := ilog2 n1 (Z.pos d1)) in *. set (L2 := ilog2 n2 (Z.pos d2)) in *.
  set (e1 := Z.max (L1 - 52) (-1074)). set (e2 := Z.max (L2 - 52) (-1074)).
  assert (He : (e1 <= e2)%Z) by (unfold e1, e2; lia).
  assert (HN1 : (0 <= shl n1 (- e1))%Z) by (apply Z.lt_le_incl, shl_pos; lia).
  assert (HN2 : (0 <= shl n2 (- e2))%Z) by (apply Z.lt_le_incl, shl_pos; lia).
  assert (HD1 : (0 < shl (Z.pos d1) e1)%Z) by (apply shl_pos; lia).
  assert (HD2 : (0 < shl (Z.pos d2) e2)%Z) by (apply shl_pos; lia).
  destruct (Z.eq_dec e1 e2) as [Heq | Hne].
  - rewrite <- Heq. apply Qmult_le_compat_r;
      [|pose proof (pow2_pos e1); lra].
    rewrite <- Zle_Qle. rewrite <- Heq in HD2, HN2.
    apply round_half_even_mono; try assumption.
    unfold shl.
    assert (0 <= 2 ^ Z.max (- e1) 0)%Z by (apply Z.pow_nonneg; lia).
    assert (0 <= 2 ^ Z.max e1 0)%Z by (apply Z.pow_nonneg; lia).
    set (A := (2 ^ Z.max (- e1) 0)%Z) in *. set (B := (2 ^ Z.max e1 0)%Z) in *.
    assert (0 <= A * B)%Z by nia.
    replace (n1 * A * (Z.pos d2 * B))%Z with ((n1 * Z.pos d2) * (A * B))%Z by ring.
    replace (n2 * A * (Z.pos d1 * B))%Z with ((n2 * Z.pos d1) * (A * B))%Z by ring.
    now apply Z.mul_le_mono_nonneg_r.
  - assert (Hlt : (e1 < e2)%Z) by lia.
    assert (He2 : e2 = (L2 - 52)%Z) by (unfold e1, e2 in *; lia).
    assert (He1 : (L1 + 1 <= e1 + 53)%Z) by (unfold e1; lia).
    (* the mantissa of x is at most 2^53 *)
    assert (Hm1 : (round_half_even (shl n1 (- e1)) (shl (Z.pos d1) e1)
                   <= 2 ^ 53)%Z).
    { apply round_half_even_le; try assumption.
      rewrite Zle_Qle, inject_Z_mult.
      apply scaled_le; [lia|].
      rewrite pow2_inject by lia. rewrite <- pow2_plus.
      apply Qle_trans with (pow2 (L1 + 1) * inject_Z (Z.pos d1));
        [apply Qlt_le_weak; exact Hhi1|].
      apply Qmult_le_compat_r;
        [|apply Qlt_le_weak, inject_Z_pos; lia].
      apply pow2_mono. lia. }
    (* the mantissa of y is at least 2^52 *)
    assert (Hm2 : (2 ^ 52 <= round_half_even (shl n2 (- e2)) (shl (Z.pos d2) e2))%Z).
    { apply round_half_even_ge; try assumption.
      rewrite Zle_Qle, inject_Z_mult.
      apply scaled_ge; [lia|].
      rewrite pow2_inject by lia. rewrite <- pow2_plus.
      replace (52 + e2)%Z with L2 by lia. exact Hlo2. }
    rewrite Zle_Qle in Hm1, Hm2. rewrite !pow2_inject in Hm1, Hm2 by lia.
    pose proof (pow2_pos e1) as P1. pose proof (pow2_pos e2) as P2.
    apply Qle_trans with (pow2 53 * pow2 e1);
      [apply Qmult_le_compat_r; [exact Hm1 | lra]|].
    apply Qle_trans with (pow2 52 * pow2 e2);
      [|apply Qmult_le_compat_r; [exact Hm2 | lra]].
    rewrite <- !pow2_plus. apply pow2_mono. lia.
Qed.

End Binary64Monotone.

(* ================================================================= *)
(** ** Tag cloud: sizes grow with counts *)

Section TagSizeMonotone.

Import Binary64 Binary64Facts.
Local Open Scope Q_scope.

Lemma tag_ratio_mono (M m c1 c2 : Z) :
  (m <= c1)%Z -> (c1 <= c2)%Z -> (c2 <= M)%Z ->
  tag_ratio M m c1 <= tag_ratio M m c2.
Proof.
  intros H1 H2 H3. unfold tag_ratio.
  destruct (Z.eqb_spec M m) as [|Hne]; [lra|].
  unfold Binary64.div, of_int.
  assert (HD : 0 < inject_Z (M - m)) by (apply inject_Z_pos; lia).
  assert (Hinv : 0 < / inject_Z (M - m)) by now apply Qinv_lt_0_compat.
  assert (Hc1 : 0 <= inject_Z (c1 - m))
    by (change 0 with (inject_Z 0); rewrite <- Zle_Qle; lia).
  assert (Hc12 : inject_Z (c1 - m) <= inject_Z (c2 - m))
    by (rewrite <- Zle_Qle; lia).
  apply rnd_mono; unfold Qdiv.
  - apply Qmult_le_0_compat; lra.
  - apply Qmult_le_compat_r; lra.
Qed.

Lemma raw_size_mono (r1 r2 : Q) :
  0 <= r1 -> r1 <= r2 -> raw_size r1 <= raw_size r2.
Proof.
  intros H0 H12. unfold raw_size, Binary64.add, Binary64.mul.
  rewrite span_value, minSize_value.
  set (D := 6755399441055745 # 9007199254740992).
  assert (HD : 0 <= D) by (unfold D, Qle; simpl; lia).
  assert (Hy1 : 0 <= rnd (D * r1))
    by (apply rnd_nonneg, Qmult_le_0_compat; assumption).
  assert (Hy : rnd (D * r1) <= rnd (D * r2)).
  { apply rnd_mono; [now apply Qmult_le_0_compat|].
    rewrite !(Qmult_comm D). now apply Qmult_le_compat_r. }
  apply rnd_mono; lra.
Qed.

Lemma toFixed2_mono (x y : Q) :
  845 # 1000 <= x -> x <= y -> (toFixed2 x <= toFixed2 y)%Z.
Proof.
  intros Hx Hxy. unfold toFixed2.
  assert (Hpx : (0 < Qnum x)%Z).
  { assert (0 < x) as H by lra. unfold Qlt in H. simpl in H. lia. }
  assert (Hpy : (0 < Qnum y)%Z).
  { assert (0 < y) as H by lra. unfold Qlt in H. simpl in H. lia. }
  rewrite (Z.sgn_pos _ Hpx), (Z.sgn_pos _ Hpy), !Z.mul_1_l.
  apply Qfloor_resp_le.
  rewrite (Qabs_pos x), (Qabs_pos y) by lra. lra.
Qed.

Lemma parseFloat2_mono (n1 n2 : Z) :
  (0 <= n1)%Z -> (n1 <= n2)%Z -> parseFloat2 n1 <= parseFloat2 n2.
Proof.
  intros H0 H12. unfold parseFloat2. apply rnd_mono; unfold Qle; simpl; lia.
Qed.

(** Between [min] and [max], a larger count never gets a smaller size. *)
Lemma tag_size_mono (M m c1 c2 : Z) :
  (m <= c1)%Z -> (c1 <= c2)%Z -> (c2 <= M)%Z ->
  tag_size M m c1 <= tag_size M m c2.
Proof.
  intros H1 H2 H3. unfold tag_size.
  destruct (tag_ratio_bounds M m c1 ltac:(lia)) as [R0 R1].
  destruct (raw_size_bounds _ R0 R1) as [X0 _].
  pose proof (tag_ratio_mono M m c1 c2 H1 H2 H3) as HR.
  pose proof (raw_size_mono _ _ R0 HR) as HX.
  pose proof (toFixed2_mono _ _ X0 HX) as HN.
  pose proof (toFixed2_bounds _ X0) as HB.
  destruct (tag_ratio_bounds M m c1 ltac:(lia)) as [_ R1'].
  destruct (raw_size_bounds _ R0 R1') as [_ X1].
  specialize (HB X1).
  apply parseFloat2_mono; lia.
Qed.

End TagSizeMonotone.

(** X5.  In the cloud, a label counted at least as often as another has at
    least its size, labels counted equally often have the same size,
    and the entries come from the largest size to the smallest. *)
Theorem tag_cloud_sizes_follow_counts (ps : list PostView) :
  (forall e e', In e (buildTagCloud ps) -> In e' (buildTagCloud ps) ->
     (count_of ps (tc_name e) <= count_of ps (tc_name e'))%Z ->
     (tc_size e <= tc_size e')%Q) /\
  (forall e e', In e (buildTagCloud ps) -> In e' (buildTagCloud ps) ->
     count_of ps (tc_name e) = count_of ps (tc_name e') ->
     tc_size e = tc_size e') /\
  StronglySorted (fun e e' => (tc_size e' <= tc_size e)%Q) (buildTagCloud ps).
Proof.
  set (M := Math_max (map snd (tag_counts ps))).
  set (m := Math_min (map snd (tag_counts ps))).
  assert (Hle : forall e e', In e (buildTagCloud ps) ->
            In e' (buildTagCloud ps) ->
            (count_of ps (tc_name e) <= count_of ps (tc_name e'))%Z ->
            (tc_size e <= tc_size e')%Q).
  { intros e e' He He' Hc.
    apply entry_count in He as [Hin ->]. apply entry_count in He' as [Hin' ->].
    fold M m.
    destruct (Math_min_spec _ _ Hin) as [Hm _].
    destruct (Math_max_spec _ _ Hin') as [HM _].
    fold M in HM. fold m in Hm.
    apply tag_size_mono; assumption. }
  split; [exact Hle|]. split.
  - intros e e' He He' Hc.
    apply entry_count in He as [_ ->]. apply entry_count in He' as [_ ->].
    rewrite Hc. reflexivity.
  - assert (Haux : forall l,
              (forall e, In e l -> In e (buildTagCloud ps)) ->
              StronglySorted
                (fun k k' => (count_of ps k' <= count_of ps k)%Z)
                (map tc_name l) ->
              StronglySorted (fun e e' => (tc_size e' <= tc_size e)%Q) l).
    { induction l as [|e l IH]; intros Hall Hs; [constructor|].
      cbn [map] in Hs. inversion Hs as [|? ? Hs' Hfor]; subst.
      constructor.
      - apply IH; [|exact Hs']. intros e' He'. apply Hall. now right.
      - apply Forall_forall. intros e' He'. rewrite Forall_forall in Hfor.
        apply Hle.
        + apply Hall. now right.
        + apply Hall. now left.
        + apply Hfor. now apply in_map. }
    apply Haux; [auto | apply tag_cloud_order_sorted].
Qed.

Lemma tag_cloud_sizes_follow_counts_witness :
  (tc_size {| tc_name := JsString.lit "ocaml"; tc_size := minSize |} <=
   tc_size {| tc_name := JsString.lit "rust"; tc_size := maxSize |})%Q.
Proof.
  apply (proj1 (tag_cloud_sizes_follow_counts two_label_posts)).
  - right. left. vm_compute. reflexivity.
  - left. vm_compute. reflexivity.
  - vm_compute. discriminate.
Defined.

(* ================================================================= *)
(** ** First render *)

(** X9.  What the sections show right after mount: without snapshot and
    outside a browser the slots are empty and every section is an empty
    fragment, with no request issued; without snapshot in a browser
    every section shows its spinner; with a snapshot, an entry that is a
    failed request is shown as an error with its retry, although the
    component itself has fetched nothing. *)
Theorem first_render
    (isImage : jsstring -> bool) (hostname : jsstring -> jsstring)
    (rd : RouteData) :
  (let s := comp (mount false rd false) in
   renderNewsPosts isImage hostname s = FeedNothing /\
   renderGalleryContent isImage s = FeedNothing /\
   renderTagCloud s = FeedNothing /\
   renderLocalTopContent (localTopPosts s) = Nothing /\
   issued (mount false rd false) = []) /\
  (let s := comp (mount false rd true) in
   renderNewsPosts isImage hostname s = FeedSpinner /\
   renderGalleryContent isImage s = FeedSpinner /\
   renderTagCloud s = FeedSpinner /\
   renderLocalTopContent (localTopPosts s) = Spinner) /\
  (forall isBrowser err,
     let w := mount true rd isBrowser in
     (rd_newsPosts rd = Failed err ->
      renderNewsPosts isImage hostname (comp w) =
        FeedError (renderError err fetchAll) /\ issued w = []) /\
     (rd_galleryPosts rd = Failed err ->
      renderGalleryContent isImage (comp w) =
        FeedError (renderError err fetchAll) /\ issued w = []) /\
     (rd_localTopPosts rd = Failed err ->
      renderTagCloud (comp w) = FeedError (renderError err fetchAll) /\
      renderLocalTopContent (localTopPosts (comp w)) =
        ErrorAlert (message err) /\
      issued w = [])).
Proof.
  split; [|split].
  - cbv zeta. repeat split.
  - cbv zeta. repeat split.
  - intros isBrowser err. cbv zeta.
    assert (E : mount true rd isBrowser =
                {| comp := constructor true rd; history := []; issued := [];
                   tasks := [] |})
      by (destruct isBrowser; reflexivity).
    rewrite E.
    unfold renderNewsPosts, renderGalleryContent, renderTagCloud.
    cbn [comp issued constructor newsPosts galleryPosts localTopPosts].
    split; [|split]; intros ->; repeat split.
Qed.

Lemma first_render_witness :
  renderNewsPosts ends_in_png host_of (comp (mount true failed_snapshot true))
  = FeedError (renderError timeout_error fetchAll) /\
  issued (mount true failed_snapshot true) = [].
Proof.
  apply (proj1 (proj2 (proj2 (first_render ends_in_png host_of
           failed_snapshot)) true timeout_error)).
  reflexivity.
Defined.
